(** * butano SRAM layer: bus configurator and typed storage accessor

    Shallow embedding of
      - butano/hw/src/bn_hw_sram.cpp   ([bn::hw::sram::init], [save_type])
      - butano/include/bn_sram.h       ([bn::sram::size], [read], [read_offset],
                                        [write], [write_offset])
      - games/pong/src/main.cpp        (the game loop of [main])
    The C++ code runs against global hardware state (the SRAM bank and the
    WAITCNT register); here that state is a record threaded through a small
    state-and-failure monad.  The game loop is a step function on the locals
    of [main], with the keypad and the random generator as inputs. *)

From Stdlib Require Import ZArith List Lia String Ascii.
From Stdlib.Strings Require Import Byte.
From stdpp Require Import base decidable option list.
Import ListNotations.
Local Open Scope Z_scope.

(** ** The [int] type of the target (32 bits, two's complement) *)

Definition INT_MIN : Z := - 2 ^ 31.
Definition INT_MAX : Z := 2 ^ 31 - 1.

Definition is_int (z : Z) : Prop := INT_MIN <= z <= INT_MAX.

(** The value a 32-bit register holds after an integer operation whose
    mathematical result is [z].  C++ leaves signed overflow undefined; the
    ARM7TDMI's [ADD] wraps modulo [2^32], which is what is written out here
    for the counters of the game loop (the score and the deltas of the
    ball). *)
Definition int_wrap (z : Z) : Z := (z + 2 ^ 31) mod 2 ^ 32 - 2 ^ 31.

Definition int_add (a b : Z) : Z := int_wrap (a + b).

(** Conversion to [u16], as done by a store to a 16-bit register. *)
Definition u16 (z : Z) : Z := z mod 2 ^ 16.

(** ** Build-time configuration *)

(** The four wait-state choices accepted by the [static_assert] of
    bn_hw_sram.cpp. *)
Inductive sram_wait_state : Type :=
| BN_SRAM_WAIT_STATE_4
| BN_SRAM_WAIT_STATE_3
| BN_SRAM_WAIT_STATE_2
| BN_SRAM_WAIT_STATE_8.

(** Modelled from the spec: the header defining the [BN_SRAM_WAIT_STATE_*]
    macros is not among the verified sources.  The spec speaks of "a closed
    enumerated set of four legal values for the target device family"; the
    codes below are the GBA's encoding of the SRAM wait control (bits 0-1 of
    WAITCNT: 0, 1, 2, 3 stand for 4, 3, 2, 8 cycles). *)
Definition wait_state_code (w : sram_wait_state) : Z :=
  match w with
  | BN_SRAM_WAIT_STATE_4 => 0
  | BN_SRAM_WAIT_STATE_3 => 1
  | BN_SRAM_WAIT_STATE_2 => 2
  | BN_SRAM_WAIT_STATE_8 => 3
  end.

(** Modelled from the spec: mask of "the wait-state field for the storage
    bus" inside the wait-control register (bits 0-1 on the GBA). *)
Definition SRAM_WAIT_MASK : Z := 3.

Definition wait_state_field (r : Z) : Z := Z.land r SRAM_WAIT_MASK.

(** What is fixed when the program is built: the size of the bank returned by
    [bn::hw::sram::size()] (bn_hw_sram_constants.h, a constant taken as a
    parameter) and the macro [BN_CFG_SRAM_WAIT_STATE] (bn_config_sram.h).
    [size()] has type [int], hence the upper bound. *)
Class sram_config : Type := {
  hw_sram_size : Z;
  BN_CFG_SRAM_WAIT_STATE : sram_wait_state;
  hw_sram_size_pos : 0 < hw_sram_size;
  hw_sram_size_int : hw_sram_size <= INT_MAX
}.

(** The configuration of the spec's concrete scenarios: a bank of 32768
    bytes. *)
Instance sram_32k (w : sram_wait_state) : sram_config :=
  {| hw_sram_size := 32768;
     BN_CFG_SRAM_WAIT_STATE := w;
     hw_sram_size_pos := eq_refl;
     hw_sram_size_int := ltac:(discriminate) |}.

(** ** Machine state *)

(** Accesses that leave the processor: [REG_WAITCNT_NV] stores and calls of
    the raw copy primitives, in program order. *)
Inductive event : Type :=
| RegStore (value : Z)
| RawRead (size offset : Z)
| RawWrite (size offset : Z).

Record machine : Type := {
  sram : list byte;        (* the battery-backed bank, MEM_SRAM[0 .. size()) *)
  waitcnt : Z;             (* REG_WAITCNT, a 16-bit register *)
  trace : list event
}.

Definition log (e : event) (m : machine) : machine :=
  {| sram := sram m; waitcnt := waitcnt m; trace := trace m ++ [e] |}.

Definition set_sram (s : list byte) (m : machine) : machine :=
  {| sram := s; waitcnt := waitcnt m; trace := trace m |}.

Definition set_waitcnt (r : Z) (m : machine) : machine :=
  {| sram := sram m; waitcnt := r; trace := trace m |}.

(** The bank has the configured size. *)
Definition bank_ok {cfg : sram_config} (m : machine) : Prop :=
  Z.of_nat (length (sram m)) = hw_sram_size.

Definition machine_ok {cfg : sram_config} (m : machine) : Prop :=
  bank_ok m /\ 0 <= waitcnt m < 2 ^ 16.

(** ** Outcomes and the monad of the layer *)

(** One operand of a [BN_ASSERT] report. *)
Inductive msg_part : Type :=
| Str (s : string)
| Int (z : Z).

Inductive outcome (A : Type) : Type :=
| Done (a : A) (m : machine)                   (* returned [a] *)
| Halted (report : list msg_part) (m : machine) (* a [BN_ASSERT] fired *)
| Undefined (m : machine).   (* a raw primitive was handed a range outside the bank *)
Arguments Done {A} a m.
Arguments Halted {A} report m.
Arguments Undefined {A} m.

Definition M (A : Type) : Type := machine -> outcome A.

Definition ret {A : Type} (a : A) : M A := fun m => Done a m.

Definition bind {A B : Type} (c : M A) (k : A -> M B) : M B :=
  fun m =>
    match c m with
    | Done a m' => k a m'
    | Halted report m' => Halted report m'
    | Undefined m' => Undefined m'
    end.

Notation "'let!' x ':=' c 'in' k" := (bind c (fun x => k))
  (at level 10, x name, c at level 100, k at level 200).
Notation "'exec' c 'then' k" := (bind c (fun _ => k))
  (at level 10, c at level 100, k at level 200).

(** The machine an outcome ends in. *)
Definition final {A : Type} (o : outcome A) : machine :=
  match o with
  | Done _ m => m
  | Halted _ m => m
  | Undefined m => m
  end.

(** Modelled from the spec: bn_assert.h is not among the verified sources.
    "a fatal assertion at the call site, reported with the offending operands
    [...], and halts execution": a failed condition stops the program with
    the report, a true one does nothing.  (Builds with assertions enabled.) *)
Definition BN_ASSERT (condition : bool) (report : list msg_part) : M unit :=
  fun m => if condition then Done tt m else Halted report m.

(** ** Flat-copyable types *)

(** [is_trivially_copyable<Type>()]: the value of an object is carried by its
    [sizeof] bytes, and copying these bytes copies the value. *)
Class trivially_copyable (T : Type) : Type := {
  sizeof : nat;
  to_bytes : T -> list byte;         (* the object representation *)
  from_bytes : list byte -> T        (* the value an object with these bytes holds *)
}.
Arguments sizeof T {_}.

Class trivially_copyable_laws (T : Type) `{trivially_copyable T} : Prop := {
  to_bytes_length : forall v : T, length (to_bytes v) = sizeof T;
  from_to_bytes : forall v : T, from_bytes (to_bytes v) = v
}.

(** [int(sizeof(Type))].  No object is larger than [PTRDIFF_MAX = INT_MAX]
    on the target, so the conversion keeps the value. *)
Definition int_sizeof (T : Type) `{trivially_copyable T} : Z :=
  Z.of_nat (sizeof T).

Definition byte_of_Z (z : Z) : byte :=
  match Byte.of_N (Z.to_N (z mod 256)) with
  | Some b => b
  | None => x00
  end.

Definition Z_of_byte (b : byte) : Z := Z.of_N (Byte.to_N b).

(** Little-endian encoding of [z] on [n] bytes, and its inverse. *)
Fixpoint le_encode (n : nat) (z : Z) : list byte :=
  match n with
  | O => []
  | S k => byte_of_Z z :: le_encode k (z / 256)
  end.

Fixpoint le_decode (bs : list byte) : Z :=
  match bs with
  | [] => 0
  | b :: rest => Z_of_byte b + 256 * le_decode rest
  end.

Definition uint8_t : Type := byte.

Definition uint32_t : Type := dsig (fun z : Z => 0 <= z < 2 ^ 32).

Definition uint32 (z : Z) : uint32_t :=
  dexist (z mod 2 ^ 32) (Z.mod_pos_bound z (2 ^ 32) eq_refl).

Instance uint8_copyable : trivially_copyable uint8_t :=
  {| sizeof := 1;
     to_bytes := fun v => [v];
     from_bytes := fun bs => match bs with b :: _ => b | [] => x00 end |}.

Instance uint32_copyable : trivially_copyable uint32_t :=
  {| sizeof := 4;
     to_bytes := fun v => le_encode 4 (proj1_sig v);
     from_bytes := fun bs => uint32 (le_decode (take 4 bs)) |}.

(** ** The raw copy primitives ([_bn::sram]) *)

(** In-range test of an access window [(offset, size)]. *)
Definition in_bank {cfg : sram_config} (size offset : Z) : bool :=
  (0 <=? size) && (0 <=? offset) && (offset + size <=? hw_sram_size).

(** Modelled from the spec: the bodies of [unsafe_read] and [unsafe_write]
    (bn_sram.cpp and the hardware copy loop) are not among the verified
    sources; bn_sram.h only declares them.  The spec gives them as the
    capability [copy_from_storage] / [copy_to_storage], "assumed to perform
    the requested byte transfer unconditionally and correctly once bounds are
    pre-validated": a byte-by-byte copy between the object and the bank,
    starting at [offset]. *)
Fixpoint copy_to_storage (source : list byte) (offset : nat) (bank : list byte)
  : list byte :=
  match source with
  | [] => bank
  | b :: rest => copy_to_storage rest (S offset) (<[offset := b]> bank)
  end.

Fixpoint copy_from_storage (size offset : nat) (bank : list byte) : list byte :=
  match size with
  | O => []
  | S n =>
      match bank !! offset with
      | Some b => b
      | None => x00
      end :: copy_from_storage n (S offset) bank
  end.

Module _bn_sram.

(** Modelled from the spec: see [copy_from_storage].  The call is logged;
    inside the bank the first [size] bytes of [destination] are overwritten,
    outside the bank the spec gives the primitive no meaning. *)
Definition unsafe_read {cfg : sram_config} {T : Type} `{trivially_copyable T}
    (destination : T) (size offset : Z) : M T :=
  fun m =>
    let m' := log (RawRead size offset) m in
    if in_bank size offset then
      let data := copy_from_storage (Z.to_nat size) (Z.to_nat offset) (sram m') in
      Done (from_bytes (data ++ drop (Z.to_nat size) (to_bytes destination))) m'
    else Undefined m'.

(** Modelled from the spec: see [copy_to_storage].  [source] is the object
    representation the [const void*] points to. *)
Definition unsafe_write {cfg : sram_config} (source : list byte) (size offset : Z)
  : M unit :=
  fun m =>
    let m' := log (RawWrite size offset) m in
    if in_bank size offset then
      Done tt (set_sram (copy_to_storage (take (Z.to_nat size) source)
                           (Z.to_nat offset) (sram m')) m')
    else Undefined m'.

End _bn_sram.

(** ** The bus configurator ([bn::hw::sram]) *)

(** A constant object of static storage duration, with the attributes of its
    declaration. *)
Record static_object : Type := {
  obj_alignment : Z;      (* [alignas] *)
  obj_used : bool;        (* [__attribute__((used))] *)
  obj_const : bool;
  obj_bytes : list byte
}.

Definition alignof_int : Z := 4.

Inductive io_reg : Type :=
| REG_WAITCNT_NV.

(** Modelled from the spec: tonc's [BIT_SET(y, flag)] macro is not among
    the verified sources; it is [y |= flag], here on a 16-bit register: one
    load, one store of the OR-ed value. *)
Definition BIT_SET (y : io_reg) (flag : Z) : M unit :=
  fun m =>
    match y with
    | REG_WAITCNT_NV =>
        let v := u16 (Z.lor (waitcnt m) flag) in
        Done tt (log (RegStore v) (set_waitcnt v m))
    end.

Module hw_sram.

(** Modelled from the spec: [bn::hw::sram::size()] (bn_hw_sram_constants.h)
    "returns [total_size]", the configured size of the bank. *)
Definition size {cfg : sram_config} : Z := hw_sram_size.

(** [alignas(int) __attribute__((used)) const char save_type[] = "SRAM_V113";] *)
Definition save_type : static_object :=
  {| obj_alignment := alignof_int;
     obj_used := true;
     obj_const := true;
     obj_bytes := list_byte_of_string "SRAM_V113" ++ [x00] |}.

Definition init {cfg : sram_config} : M static_object :=
  exec BIT_SET REG_WAITCNT_NV (wait_state_code BN_CFG_SRAM_WAIT_STATE)
  then ret save_type.

End hw_sram.

(** ** The typed storage accessor ([bn::sram]) *)

Module sram.

Definition size {cfg : sram_config} : Z := hw_sram.size.

(** [static_assert(int(sizeof(Type)) <= size(), "Source size is too high")]:
    a type without this instance is rejected when the program is built. *)
Class fits {cfg : sram_config} (T : Type) `{trivially_copyable T} : Prop :=
  size_fits : int_sizeof T <= size.

Definition read {cfg : sram_config} {T : Type} `{!trivially_copyable T} `{!fits T}
    (destination : T) : M T :=
  _bn_sram.unsafe_read destination (int_sizeof T) 0.

(** The sum [int(sizeof(Type)) + offset] of the second assertion is the exact
    one.  Both operands are of type [int]; where their sum passes [INT_MAX]
    the C++ addition has no defined result, and the compiler, which may rely
    on it not to overflow, tests [offset <= size() - int(sizeof(Type))]: the
    assertion fires there as for every other window that ends past the
    bank. *)
Definition read_offset {cfg : sram_config} {T : Type} `{!trivially_copyable T}
    `{!fits T} (destination : T) (offset : Z) : M T :=
  exec BN_ASSERT (0 <=? offset) [Str "Invalid offset: "; Int offset] then
  exec BN_ASSERT (int_sizeof T + offset <=? size)
         [Str "Source size and offset are too high: "; Int (int_sizeof T);
          Str " - "; Int offset] then
  _bn_sram.unsafe_read destination (int_sizeof T) offset.

Definition write {cfg : sram_config} {T : Type} `{!trivially_copyable T} `{!fits T}
    (source : T) : M unit :=
  _bn_sram.unsafe_write (to_bytes source) (int_sizeof T) 0.

Definition write_offset {cfg : sram_config} {T : Type} `{!trivially_copyable T}
    `{!fits T} (source : T) (offset : Z) : M unit :=
  exec BN_ASSERT (0 <=? offset) [Str "Invalid offset: "; Int offset] then
  exec BN_ASSERT (int_sizeof T + offset <=? size)
         [Str "Source size and offset are too high: "; Int (int_sizeof T);
          Str " - "; Int offset] then
  _bn_sram.unsafe_write (to_bytes source) (int_sizeof T) offset.

End sram.

(** ** Vocabulary of the statements *)

(** The two assertions that open [read_offset] and [write_offset], followed
    by the rest [k] of the function. *)
Definition checked {cfg : sram_config} (T : Type) `{!trivially_copyable T}
    {A : Type} (offset : Z) (k : M A) : M A :=
  exec BN_ASSERT (0 <=? offset) [Str "Invalid offset: "; Int offset] then
  exec BN_ASSERT (int_sizeof T + offset <=? sram.size)
         [Str "Source size and offset are too high: "; Int (int_sizeof T);
          Str " - "; Int offset] then
  k.

(** The events an operation started in [m] added to the trace. *)
Definition new_events {A : Type} (m : machine) (o : outcome A) : list event :=
  drop (length (trace m)) (trace (final o)).

(** A call of a raw primitive stays inside the bank. *)
Definition event_in_bank {cfg : sram_config} (e : event) : Prop :=
  match e with
  | RegStore _ => True
  | RawRead size offset => 0 <= offset /\ offset + size <= hw_sram_size
  | RawWrite size offset => 0 <= offset /\ offset + size <= hw_sram_size
  end.

Definition is_halted {A : Type} (o : outcome A) : bool :=
  match o with
  | Halted _ _ => true
  | _ => false
  end.

(** A bank of the configured size with every byte at [value], the register
    at [r] and nothing logged: the machine of the concrete scenarios. *)
Definition filled {cfg : sram_config} (value : byte) (r : Z) : machine :=
  {| sram := repeat value (Z.to_nat hw_sram_size); waitcnt := r; trace := [] |}.

(** ** The game loop of games/pong/src/main.cpp *)

Definition int_mul (a b : Z) : Z := int_wrap (a * b).

Module pong.

(** [bn::sound_items::pong] and [bn::sound_items::ping]. *)
Inductive sound_item : Type :=
| pong
| ping.

(** What a frame sends out: [sound_item.play()] and [BN_LOG(score)]. *)
Inductive output : Type :=
| Play (s : sound_item)
| Log (value : Z).

(** The keypad as [bn::core::update()] sampled it for the frame. *)
Record keypad : Type := {
  up_held : bool;
  down_held : bool;
  a_pressed : bool;
  b_pressed : bool
}.

(** The locals of [main] and the positions of the sprites it moves.
    Positions are [bn::fixed] values in the source; the type is not among the
    verified sources and every position the program builds is a whole number
    of pixels (0 at creation, then changed by whole [int]s), so they are
    integers here.  [rng] counts the calls of [random.get_int()] made so far;
    [text] is what [text_sprites] shows. *)
Record game : Type := {
  left_paddle_y : Z;
  right_paddle_y : Z;
  ball_x : Z;
  ball_y : Z;
  score : Z;
  enemy_going_up : bool;
  delta_x : Z;
  delta_y : Z;
  rng : nat;
  text : list msg_part;
  outputs : list output
}.

Definition set_left_paddle_y (y : Z) (g : game) : game :=
  {| left_paddle_y := y; right_paddle_y := right_paddle_y g;
     ball_x := ball_x g; ball_y := ball_y g; score := score g;
     enemy_going_up := enemy_going_up g;
     delta_x := delta_x g; delta_y := delta_y g;
     rng := rng g; text := text g; outputs := outputs g |}.

Definition set_enemy (up : bool) (y : Z) (g : game) : game :=
  {| left_paddle_y := left_paddle_y g; right_paddle_y := y;
     ball_x := ball_x g; ball_y := ball_y g; score := score g;
     enemy_going_up := up;
     delta_x := delta_x g; delta_y := delta_y g;
     rng := rng g; text := text g; outputs := outputs g |}.

Definition set_ball (x y : Z) (g : game) : game :=
  {| left_paddle_y := left_paddle_y g; right_paddle_y := right_paddle_y g;
     ball_x := x; ball_y := y; score := score g;
     enemy_going_up := enemy_going_up g;
     delta_x := delta_x g; delta_y := delta_y g;
     rng := rng g; text := text g; outputs := outputs g |}.

Definition set_delta (dx dy : Z) (g : game) : game :=
  {| left_paddle_y := left_paddle_y g; right_paddle_y := right_paddle_y g;
     ball_x := ball_x g; ball_y := ball_y g; score := score g;
     enemy_going_up := enemy_going_up g;
     delta_x := dx; delta_y := dy;
     rng := rng g; text := text g; outputs := outputs g |}.

Definition set_score (s : Z) (g : game) : game :=
  {| left_paddle_y := left_paddle_y g; right_paddle_y := right_paddle_y g;
     ball_x := ball_x g; ball_y := ball_y g; score := s;
     enemy_going_up := enemy_going_up g;
     delta_x := delta_x g; delta_y := delta_y g;
     rng := rng g; text := text g; outputs := outputs g |}.

Definition set_rng (i : nat) (g : game) : game :=
  {| left_paddle_y := left_paddle_y g; right_paddle_y := right_paddle_y g;
     ball_x := ball_x g; ball_y := ball_y g; score := score g;
     enemy_going_up := enemy_going_up g;
     delta_x := delta_x g; delta_y := delta_y g;
     rng := i; text := text g; outputs := outputs g |}.

(** [text_sprites.clear(); text_generator.generate(-6 * 16, -68, txt, text_sprites)] *)
Definition show (txt : list msg_part) (g : game) : game :=
  {| left_paddle_y := left_paddle_y g; right_paddle_y := right_paddle_y g;
     ball_x := ball_x g; ball_y := ball_y g; score := score g;
     enemy_going_up := enemy_going_up g;
     delta_x := delta_x g; delta_y := delta_y g;
     rng := rng g; text := txt; outputs := outputs g |}.

Definition emit (o : output) (g : game) : game :=
  {| left_paddle_y := left_paddle_y g; right_paddle_y := right_paddle_y g;
     ball_x := ball_x g; ball_y := ball_y g; score := score g;
     enemy_going_up := enemy_going_up g;
     delta_x := delta_x g; delta_y := delta_y g;
     rng := rng g; text := text g; outputs := outputs g ++ [o] |}.

(** The state [main] enters its loop with (lines 38-103). *)
Definition start : game :=
  {| left_paddle_y := 0; right_paddle_y := 0;
     ball_x := 0; ball_y := 0; score := 0;
     enemy_going_up := false;
     delta_x := 0; delta_y := 0;
     rng := 0; text := [Str "(Press A to start)"]; outputs := [] |}.

(** Lines 115-128: the player's paddle. *)
Definition move_left_paddle (k : keypad) (g : game) : game :=
  if up_held k && (-48 <? left_paddle_y g) then
    set_left_paddle_y (left_paddle_y g - 1) g
  else if down_held k && (left_paddle_y g <? 48) then
    set_left_paddle_y (left_paddle_y g + 1) g
  else g.

(** Lines 134-172: the enemy's paddle. *)
Definition move_right_paddle (g : game) : game :=
  if enemy_going_up g then
    if -48 <? right_paddle_y g then
      set_enemy (enemy_going_up g) (right_paddle_y g - 1) g
    else set_enemy false (right_paddle_y g) g
  else
    if right_paddle_y g <? 48 then
      set_enemy (enemy_going_up g) (right_paddle_y g + 1) g
    else set_enemy true (right_paddle_y g) g.

(** One value of the ball's direction: [(random.get_int() % 5) - 2], with
    C++'s remainder (truncated division). *)
Definition direction (r : Z) : Z := Z.rem r 5 - 2.

(** Lines 231-235: [while (delta_x == 0 || delta_y == 0)], drawing two
    numbers per turn.  [random i] is what the [i]-th call of
    [random.get_int()] returns ([bn::random] is not among the verified
    sources); the loop has no bound of its own, [fuel] bounds its turns. *)
Fixpoint launch_loop (fuel : nat) (random : nat -> Z) (i : nat) (dx dy : Z)
  : option (Z * Z * nat) :=
  if (dx =? 0) || (dy =? 0) then
    match fuel with
    | O => None
    | S fuel' =>
        launch_loop fuel' random (S (S i))
          (direction (random i)) (direction (random (S i)))
    end
  else Some (dx, dy, i).

(** Lines 177-239: serving the ball. *)
Definition launch (fuel : nat) (random : nat -> Z) (k : keypad) (g : game)
  : option game :=
  if a_pressed k && (delta_x g =? 0) && (delta_y g =? 0) then
    let g1 := show [Str "Score: "; Int (score g)] g in
    match launch_loop fuel random (rng g1) (delta_x g1) (delta_y g1) with
    | Some (dx, dy, i) => Some (emit (Play pong) (set_rng i (set_delta dx dy g1)))
    | None => None
    end
  else Some g.

(** Lines 244-245. *)
Definition move_ball (g : game) : game :=
  set_ball (ball_x g + delta_x g) (ball_y g + delta_y g) g.

(** Lines 276-286 and 303-308: the point is over. *)
Definition new_round (s : Z) (g : game) : game :=
  let g1 := set_score s g in
  let g2 := set_ball 0 0 g1 in
  let g3 := set_delta 0 0 g2 in
  show [Str "Score: "; Int (score g3); Str " (Press A)"] g3.

(** Lines 251-310: the ball at the height of a paddle. *)
Definition paddle_zone (g : game) : game :=
  if ball_x g <? -100 then
    if Z.abs (ball_y g - left_paddle_y g) <? 32 then
      emit (Play pong) (set_delta (int_mul (delta_x g) (-1)) (delta_y g) g)
    else new_round (int_add (score g) (-1)) g
  else if 100 <? ball_x g then
    if Z.abs (ball_y g - right_paddle_y g) <? 32 then
      emit (Play pong) (set_delta (int_mul (delta_x g) (-1)) (delta_y g) g)
    else new_round (int_add (score g) 1) g
  else g.

(** Lines 313-324: top and bottom of the screen. *)
Definition walls (g : game) : game :=
  if ball_y g <? -64 then
    emit (Play ping) (set_delta (delta_x g) (int_mul (delta_y g) (-1)) g)
  else if 64 <? ball_y g then
    emit (Play ping) (set_delta (delta_x g) (int_mul (delta_y g) (-1)) g)
  else g.

(** Lines 338-341. *)
Definition log_score (k : keypad) (g : game) : game :=
  if b_pressed k then emit (Log (score g)) g else g.

(** One turn of [while (true)] (lines 109-346); [None] when the serving
    loop is still running after [fuel] turns. *)
Definition frame (fuel : nat) (random : nat -> Z) (k : keypad) (g : game)
  : option game :=
  match launch fuel random k (move_right_paddle (move_left_paddle k g)) with
  | Some g1 => Some (log_score k (walls (paddle_zone (move_ball g1))))
  | None => None
  end.

(** Turn after turn, one keypad sample and one bound on the serving loop
    per turn. *)
Fixpoint frames (random : nat -> Z) (inputs : list (nat * keypad)) (g : game)
  : option game :=
  match inputs with
  | [] => Some g
  | (fuel, k) :: rest =>
      match frame fuel random k g with
      | Some g' => frames random rest g'
      | None => None
      end
  end.

(** The states the loop can be in at the top of a turn. *)
Inductive reachable (random : nat -> Z) : game -> Prop :=
| reachable_start : reachable random start
| reachable_frame (g g' : game) (k : keypad) (fuel : nat) :
    reachable random g -> frame fuel random k g = Some g' ->
    reachable random g'.

(** The ball rests in the centre, or moves on both axes at no more than [D]
    pixels per frame inside the court, heading back in when it is past a
    paddle line or a wall line. *)
Definition ball_ok (D : Z) (g : game) : Prop :=
  (delta_x g = 0 /\ delta_y g = 0 /\ ball_x g = 0 /\ ball_y g = 0) \/
  (delta_x g <> 0 /\ delta_y g <> 0 /\
   Z.abs (delta_x g) <= D /\ Z.abs (delta_y g) <= D /\
   -100 - Z.abs (delta_x g) <= ball_x g <= 100 + Z.abs (delta_x g) /\
   (ball_x g < -100 -> 0 < delta_x g) /\ (100 < ball_x g -> delta_x g < 0) /\
   -64 - Z.abs (delta_y g) <= ball_y g <= 64 + Z.abs (delta_y g) /\
   (ball_y g < -64 -> 0 < delta_y g) /\ (64 < ball_y g -> delta_y g < 0)).

(** The point is over: ball in the centre, at rest, and the score shown. *)
Definition round_over (g : game) : Prop :=
  ball_x g = 0 /\ ball_y g = 0 /\ delta_x g = 0 /\ delta_y g = 0 /\
  text g = [Str "Score: "; Int (score g); Str " (Press A)"].

Definition paddles_ok (g : game) : Prop :=
  -48 <= left_paddle_y g <= 48 /\ -48 <= right_paddle_y g <= 48.

(** A serve that is kept: the two numbers drawn from call [i] on both give a
    direction other than 0. *)
Definition good_pair (random : nat -> Z) (i : nat) : Prop :=
  direction (random i) <> 0 /\ direction (random (S i)) <> 0.

(** The enemy's paddle alone, turn after turn. *)
Fixpoint enemy_after (n : nat) (g : game) : game :=
  match n with
  | O => g
  | S n' => enemy_after n' (move_right_paddle g)
  end.

(** Inputs of the examples: a generator that counts up from 3 (its first two
    draws give the directions 1 and 2), one that always returns 2 (direction
    0), and two keypad samples. *)
Definition counting (i : nat) : Z := 3 + Z.of_nat i.

Definition stuck (i : nat) : Z := 2.

Definition no_keys : keypad :=
  {| up_held := false; down_held := false; a_pressed := false; b_pressed := false |}.

Definition press_a_up : keypad :=
  {| up_held := true; down_held := false; a_pressed := true; b_pressed := false |}.

Definition result (o : option game) : game :=
  match o with
  | Some g => g
  | None => start
  end.

(** The game after a serve, and one turn later. *)
Definition served : game := result (frame 1 counting press_a_up start).

Definition served_next : game := result (frame 0 counting no_keys served).

Definition idle (n : nat) : list (nat * keypad) := repeat (O, no_keys) n.

(** 99 idle turns after the serve the ball is about to pass the enemy's
    paddle; the next turn ends the point. *)
Definition match_point : game := result (frames counting (idle 99) served).

Definition after_point : game := result (frame 0 counting no_keys match_point).

Definition after_194 : game := result (frames counting (idle 194) served).

(** 32 idle turns after the serve the ball has just been turned back by the
    bottom line. *)
Definition at_wall : game := result (frames counting (idle 32) served).

(** A second game: the generator counts up from 0 (directions -2 and -1),
    the player holds up; 50 turns after the serve the ball has just been
    turned back by the player's paddle. *)
Definition ascending (i : nat) : Z := Z.of_nat i.

Definition hold_up : keypad :=
  {| up_held := true; down_held := false; a_pressed := false; b_pressed := false |}.

Definition at_paddle : game :=
  result (frames ascending (repeat (O, hold_up) 50)
            (result (frame 1 ascending press_a_up start))).

End pong.

(** * Properties *)

(** ** Integer arithmetic *)

Lemma int_wrap_id (z : Z) : is_int z -> int_wrap z = z.
Proof.
  unfold is_int, INT_MIN, INT_MAX, int_wrap. intros Hz.
  rewrite Z.mod_small; lia.
Qed.

Lemma int_add_exact (a b : Z) : is_int (a + b) -> int_add a b = a + b.
Proof. apply int_wrap_id. Qed.

Lemma u16_small (z : Z) : 0 <= z < 2 ^ 16 -> u16 z = z.
Proof. apply Z.mod_small. Qed.

Lemma u16_land (z : Z) : u16 z = Z.land z (Z.ones 16).
Proof. unfold u16. now rewrite Z.land_ones by lia. Qed.

Lemma wait_state_code_range `{sram_config} :
  0 <= wait_state_code BN_CFG_SRAM_WAIT_STATE <= 3.
Proof. destruct BN_CFG_SRAM_WAIT_STATE; simpl; lia. Qed.

Lemma wait_state_code_in_mask (w : sram_wait_state) :
  Z.land (wait_state_code w) SRAM_WAIT_MASK = wait_state_code w.
Proof. destruct w; reflexivity. Qed.

(** ** The byte loops of the raw primitives *)

Lemma copy_to_storage_length (source : list byte) (offset : nat) (bank : list byte) :
  length (copy_to_storage source offset bank) = length bank.
Proof.
  revert offset bank. induction source as [|b rest IH]; intros offset bank; simpl.
  - reflexivity.
  - now rewrite IH, length_insert.
Qed.

(** Inside the bank, the store loop replaces the window and nothing else. *)
Lemma copy_to_storage_window (source : list byte) (offset : nat) (bank : list byte) :
  (offset + length source <= length bank)%nat ->
  copy_to_storage source offset bank
  = take offset bank ++ source ++ drop (offset + length source) bank.
Proof.
  revert offset bank. induction source as [|b rest IH]; intros offset bank Hlen.
  - simpl. now rewrite Nat.add_0_r, take_drop.
  - cbn [copy_to_storage length] in *.
    rewrite IH by (rewrite length_insert; lia).
    assert (Hb : <[offset:=b]> bank !! offset = Some b)
      by (apply list_lookup_insert_eq; lia).
    rewrite (take_S_r _ _ _ Hb), take_insert_ge by lia.
    rewrite drop_insert_lt by lia.
    rewrite <- app_assoc. simpl.
    now rewrite Nat.add_succ_r.
Qed.

(** Inside the bank, the load loop returns the window. *)
Lemma copy_from_storage_window (size offset : nat) (bank : list byte) :
  (offset + size <= length bank)%nat ->
  copy_from_storage size offset bank = take size (drop offset bank).
Proof.
  revert offset. induction size as [|n IH]; intros offset Hlen.
  - now rewrite take_0.
  - cbn [copy_from_storage].
    destruct (lookup_lt_is_Some_2 bank offset) as [b Hb]; [lia|].
    rewrite Hb, IH by lia.
    rewrite <- (take_drop_middle _ _ _ Hb) at 2.
    rewrite drop_app_length' by (rewrite length_take; lia).
    reflexivity.
Qed.

Lemma copy_from_storage_length (size offset : nat) (bank : list byte) :
  length (copy_from_storage size offset bank) = size.
Proof.
  revert offset. induction size as [|n IH]; intros offset; simpl; [reflexivity|].
  now rewrite IH.
Qed.

(** What the store loop wrote is what the load loop reads back. *)
Lemma copy_from_to_storage (source : list byte) (offset : nat) (bank : list byte) :
  (offset + length source <= length bank)%nat ->
  copy_from_storage (length source) offset (copy_to_storage source offset bank)
  = source.
Proof.
  intros Hlen.
  rewrite copy_from_storage_window by (rewrite copy_to_storage_length; lia).
  rewrite copy_to_storage_window by exact Hlen.
  rewrite drop_app_length' by (rewrite length_take; lia).
  apply take_app_length.
Qed.

(** ** Byte encodings and the instances of the flat-copyable types *)

Lemma Z_of_byte_of_Z (z : Z) : Z_of_byte (byte_of_Z z) = z mod 256.
Proof.
  unfold Z_of_byte, byte_of_Z.
  assert (Hr : 0 <= z mod 256 < 256) by (apply Z.mod_pos_bound; lia).
  destruct (Byte.of_N (Z.to_N (z mod 256))) as [b|] eqn:E.
  - apply Byte.to_of_N in E. rewrite E. lia.
  - apply Byte.of_N_None_iff in E. lia.
Qed.

Lemma le_encode_length (n : nat) (z : Z) : length (le_encode n z) = n.
Proof.
  revert z. induction n as [|n IH]; intros z; simpl; [reflexivity|].
  now rewrite IH.
Qed.

Lemma le_decode_encode (n : nat) (z : Z) :
  0 <= z -> le_decode (le_encode n z) = z mod 256 ^ Z.of_nat n.
Proof.
  revert z. induction n as [|n IH]; intros z Hz.
  - simpl. now rewrite Z.mod_1_r.
  - cbn [le_encode le_decode].
    rewrite Z_of_byte_of_Z, IH by (apply Z.div_pos; lia).
    rewrite Nat2Z.inj_succ, Z.pow_succ_r by lia.
    rewrite Z.rem_mul_r by lia. lia.
Qed.

Instance uint8_laws : trivially_copyable_laws uint8_t.
Proof. split; reflexivity. Qed.

Instance uint32_laws : trivially_copyable_laws uint32_t.
Proof.
  split; intros v.
  - apply le_encode_length.
  - apply dsig_eq. unfold from_bytes, to_bytes, uint32_copyable, uint32.
    cbn [proj1_sig dexist].
    pose proof (proj2_dsig v) as Hv. cbv beta in Hv.
    rewrite take_ge by (rewrite le_encode_length; lia).
    rewrite le_decode_encode by lia.
    change (256 ^ Z.of_nat 4) with (2 ^ 32).
    rewrite Z.mod_mod by lia. now apply Z.mod_small.
Qed.

Instance uint8_fits_32k (w : sram_wait_state) : @sram.fits (sram_32k w) uint8_t _.
Proof. unfold sram.fits. vm_compute. discriminate. Qed.

Instance uint32_fits_32k (w : sram_wait_state) : @sram.fits (sram_32k w) uint32_t _.
Proof. unfold sram.fits. vm_compute. discriminate. Qed.

(** ** The accessor, one operation at a time *)

Section accessor.
Context `{cfg : sram_config} {T : Type} `{!trivially_copyable T}.
Context `{!sram.fits T}.

Lemma int_sizeof_bounds : 0 <= int_sizeof T <= hw_sram_size.
Proof.
  pose proof (sram.size_fits (T:=T)) as Hfit.
  unfold sram.size, hw_sram.size, int_sizeof in *. lia.
Qed.

Lemma in_bank_true (size offset : Z) :
  0 <= size -> 0 <= offset -> offset + size <= hw_sram_size ->
  in_bank size offset = true.
Proof.
  intros Hs Ho Hb. unfold in_bank.
  rewrite !andb_true_iff, !Z.leb_le. auto.
Qed.

Lemma in_bank_false_high (size offset : Z) :
  hw_sram_size < offset + size -> in_bank size offset = false.
Proof.
  intros Hb. unfold in_bank.
  rewrite !andb_false_iff, !Z.leb_gt. auto.
Qed.

Lemma checked_negative {A : Type} (offset : Z) (k : M A) (m : machine) :
  offset < 0 ->
  checked T offset k m = Halted [Str "Invalid offset: "; Int offset] m.
Proof.
  intros Hneg. unfold checked, bind, BN_ASSERT.
  now destruct (Z.leb_spec 0 offset); [lia|].
Qed.

Lemma checked_too_high {A : Type} (offset : Z) (k : M A) (m : machine) :
  0 <= offset -> hw_sram_size < offset + int_sizeof T ->
  checked T offset k m
  = Halted [Str "Source size and offset are too high: "; Int (int_sizeof T);
            Str " - "; Int offset] m.
Proof.
  intros Hpos Hhigh.
  unfold checked, bind, BN_ASSERT.
  destruct (Z.leb_spec 0 offset); [|lia].
  unfold sram.size, hw_sram.size.
  now destruct (Z.leb_spec (int_sizeof T + offset) hw_sram_size); [lia|].
Qed.

Lemma checked_in_range {A : Type} (offset : Z) (k : M A) (m : machine) :
  0 <= offset -> offset + int_sizeof T <= hw_sram_size ->
  checked T offset k m = k m.
Proof.
  intros Hpos Hfit.
  unfold checked, bind, BN_ASSERT.
  destruct (Z.leb_spec 0 offset); [|lia].
  unfold sram.size, hw_sram.size.
  now destruct (Z.leb_spec (int_sizeof T + offset) hw_sram_size); [|lia].
Qed.

Lemma read_offset_checked (destination : T) (offset : Z) :
  sram.read_offset destination offset
  = checked T offset (_bn_sram.unsafe_read destination (int_sizeof T) offset).
Proof. reflexivity. Qed.

Lemma write_offset_checked (source : T) (offset : Z) :
  sram.write_offset source offset
  = checked T offset (_bn_sram.unsafe_write (to_bytes source) (int_sizeof T) offset).
Proof. reflexivity. Qed.

End accessor.

(** ** Round trip, equivalences and outcomes of the accessor *)

Section accessor_laws.
Context `{cfg : sram_config} {T : Type} `{!trivially_copyable T}.
Context `{!trivially_copyable_laws T} `{!sram.fits T}.

Lemma sizeof_to_nat : Z.to_nat (int_sizeof T) = sizeof T.
Proof. apply Nat2Z.id. Qed.

Lemma unsafe_read_in_bank (destination : T) (offset : Z) (m : machine) :
  0 <= offset -> offset + int_sizeof T <= hw_sram_size ->
  _bn_sram.unsafe_read destination (int_sizeof T) offset m
  = Done (from_bytes (copy_from_storage (sizeof T) (Z.to_nat offset) (sram m)))
         (log (RawRead (int_sizeof T) offset) m).
Proof.
  intros Hpos Hfit. pose proof (int_sizeof_bounds (T:=T)) as Hsz.
  unfold _bn_sram.unsafe_read.
  rewrite in_bank_true by lia. cbn [log sram].
  rewrite sizeof_to_nat, drop_ge, app_nil_r by (rewrite to_bytes_length; lia).
  reflexivity.
Qed.

Lemma unsafe_write_in_bank (source : T) (offset : Z) (m : machine) :
  0 <= offset -> offset + int_sizeof T <= hw_sram_size ->
  _bn_sram.unsafe_write (to_bytes source) (int_sizeof T) offset m
  = Done tt (set_sram (copy_to_storage (to_bytes source) (Z.to_nat offset) (sram m))
               (log (RawWrite (int_sizeof T) offset) m)).
Proof.
  intros Hpos Hfit. pose proof (int_sizeof_bounds (T:=T)) as Hsz.
  unfold _bn_sram.unsafe_write.
  rewrite in_bank_true by lia. cbn [log sram].
  rewrite sizeof_to_nat, take_ge by (rewrite to_bytes_length; lia).
  reflexivity.
Qed.

(** C1: inside the bank, [write_offset] followed by [read_offset] at the
    same offset succeeds and leaves in [destination] the bytes, and so the
    value, of what was written. *)
Theorem write_offset_read_offset_roundtrip
    (value destination : T) (offset : Z) (m : machine) :
  bank_ok m -> 0 <= offset -> offset + int_sizeof T <= sram.size ->
  exists (m1 m2 : machine) (d : T),
    sram.write_offset value offset m = Done tt m1 /\
    sram.read_offset destination offset m1 = Done d m2 /\
    to_bytes d = to_bytes value /\ d = value /\ sram m2 = sram m1.
Proof.
  intros Hlen Hpos Hfit. unfold bank_ok, sram.size, hw_sram.size in *.
  rewrite write_offset_checked, checked_in_range, unsafe_write_in_bank by assumption.
  eexists _, _, _. split; [reflexivity|].
  rewrite read_offset_checked, checked_in_range, unsafe_read_in_bank by assumption.
  cbn [set_sram log sram].
  rewrite <- (to_bytes_length value), copy_from_to_storage, from_to_bytes.
  - repeat split; reflexivity.
  - rewrite to_bytes_length. unfold int_sizeof in Hfit. lia.
Qed.

(** C6: [read] behaves as [read_offset] at offset 0 and [write] as
    [write_offset] at offset 0: same outcome, same machine, same trace. *)
Theorem read_write_are_offset_0 (destination source : T) (m : machine) :
  sram.read destination m = sram.read_offset destination 0 m /\
  sram.write source m = sram.write_offset source 0 m.
Proof.
  pose proof (int_sizeof_bounds (T:=T)) as Hsz.
  rewrite read_offset_checked, write_offset_checked.
  rewrite !checked_in_range by lia.
  split; reflexivity.
Qed.

(** [read] and [write] go straight to the primitive, at offset 0. *)
Lemma read_write_done (destination source : T) (m : machine) :
  sram.read destination m
  = Done (from_bytes (copy_from_storage (sizeof T) 0 (sram m)))
         (log (RawRead (int_sizeof T) 0) m) /\
  sram.write source m
  = Done tt (set_sram (copy_to_storage (to_bytes source) 0 (sram m))
               (log (RawWrite (int_sizeof T) 0) m)).
Proof.
  pose proof (int_sizeof_bounds (T:=T)) as Hsz.
  unfold sram.read, sram.write.
  rewrite unsafe_read_in_bank, unsafe_write_in_bank by lia.
  split; reflexivity.
Qed.

(** C9: [read] and [write] have no failing branch: from every machine they
    return, after one call of the raw primitive for [sizeof(T)] bytes at
    offset 0, which is inside the bank and moves all [sizeof(T)] bytes. *)
Theorem read_write_never_fail (destination source : T) (m : machine) :
  sram.read destination m
  = Done (from_bytes (copy_from_storage (sizeof T) 0 (sram m)))
         (log (RawRead (int_sizeof T) 0) m) /\
  sram.write source m
  = Done tt (set_sram (copy_to_storage (to_bytes source) 0 (sram m))
               (log (RawWrite (int_sizeof T) 0) m)) /\
  length (copy_from_storage (sizeof T) 0 (sram m)) = sizeof T /\
  length (to_bytes source) = sizeof T /\
  in_bank (int_sizeof T) 0 = true.
Proof.
  pose proof (int_sizeof_bounds (T:=T)) as Hsz.
  destruct (read_write_done destination source m) as [Hr Hw].
  repeat split; try assumption.
  - apply copy_from_storage_length.
  - apply to_bytes_length.
  - apply in_bank_true; lia.
Qed.

(** On a bank of the configured size, [write] replaces the first
    [sizeof(T)] bytes by the bytes of [source] and [read] decodes them. *)
Lemma read_write_transfer (destination source : T) (m : machine) :
  bank_ok m ->
  (exists m1, sram.read destination m = Done (from_bytes (take (sizeof T) (sram m))) m1) /\
  (exists m2, sram.write source m = Done tt m2 /\
     sram m2 = to_bytes source ++ drop (sizeof T) (sram m)).
Proof.
  intros Hlen. pose proof (int_sizeof_bounds (T:=T)) as Hsz.
  unfold bank_ok, int_sizeof in *.
  destruct (read_write_done destination source m) as [Hr Hw].
  split.
  - eexists. rewrite Hr, copy_from_storage_window by lia. reflexivity.
  - eexists. split; [exact Hw|]. cbn [set_sram log sram].
    rewrite copy_to_storage_window by (rewrite to_bytes_length; lia).
    now rewrite take_0, to_bytes_length.
Qed.

(** A negative offset stops [read_offset] and [write_offset] at the first
    assertion, with the offset in the report and the machine untouched. *)
Lemma offset_negative_halts (destination source : T) (offset : Z) (m : machine) :
  offset < 0 ->
  sram.read_offset destination offset m
  = Halted [Str "Invalid offset: "; Int offset] m /\
  sram.write_offset source offset m
  = Halted [Str "Invalid offset: "; Int offset] m.
Proof.
  intros Hneg. rewrite read_offset_checked, write_offset_checked.
  now rewrite !checked_negative by assumption.
Qed.

(** A window that ends past the bank stops them at the second assertion,
    with size and offset in the report and the machine untouched. *)
Lemma offset_too_high_halts (destination source : T) (offset : Z) (m : machine) :
  0 <= offset -> sram.size < offset + int_sizeof T ->
  sram.read_offset destination offset m
  = Halted [Str "Source size and offset are too high: "; Int (int_sizeof T);
            Str " - "; Int offset] m /\
  sram.write_offset source offset m
  = Halted [Str "Source size and offset are too high: "; Int (int_sizeof T);
            Str " - "; Int offset] m.
Proof.
  intros Hpos Hhigh. unfold sram.size, hw_sram.size in Hhigh.
  rewrite read_offset_checked, write_offset_checked.
  now rewrite !checked_too_high by assumption.
Qed.

(** Every raw call of the four operations is inside the bank. *)
Lemma raw_calls_bounded (destination source : T) (offset : Z) (m : machine) :
  Forall event_in_bank (new_events m (sram.read destination m)) /\
  Forall event_in_bank (new_events m (sram.write source m)) /\
  Forall event_in_bank (new_events m (sram.read_offset destination offset m)) /\
  Forall event_in_bank (new_events m (sram.write_offset source offset m)).
Proof.
  pose proof (int_sizeof_bounds (T:=T)) as Hsz.
  destruct (read_write_done destination source m) as [Hr Hw].
  assert (Hnil : forall (A : Type) r, Forall event_in_bank (new_events m (@Halted A r m))).
  { intros A r. unfold new_events. cbn [final]. rewrite drop_all. constructor. }
  assert (Hone : forall e, event_in_bank e ->
            Forall event_in_bank (drop (length (trace m)) (trace m ++ [e]))).
  { intros e He. rewrite drop_app_length. repeat constructor. exact He. }
  split; [|split; [|split]].
  - rewrite Hr. apply Hone. cbn. lia.
  - rewrite Hw. apply Hone. cbn. lia.
  - destruct (Z.lt_ge_cases offset 0) as [Hneg|Hpos].
    { rewrite (proj1 (offset_negative_halts destination source offset m Hneg)). apply Hnil. }
    destruct (Z.le_gt_cases (offset + int_sizeof T) hw_sram_size) as [Hfit|Hhigh].
    + rewrite read_offset_checked, checked_in_range, unsafe_read_in_bank by assumption.
      apply Hone. cbn. lia.
    + rewrite (proj1 (offset_too_high_halts destination source offset m Hpos Hhigh)).
      apply Hnil.
  - destruct (Z.lt_ge_cases offset 0) as [Hneg|Hpos].
    { rewrite (proj2 (offset_negative_halts destination source offset m Hneg)). apply Hnil. }
    destruct (Z.le_gt_cases (offset + int_sizeof T) hw_sram_size) as [Hfit|Hhigh].
    + rewrite write_offset_checked, checked_in_range, unsafe_write_in_bank by assumption.
      apply Hone. cbn. lia.
    + rewrite (proj2 (offset_too_high_halts destination source offset m Hpos Hhigh)).
      apply Hnil.
Qed.

(** X15: as long as [offset + sizeof(T)] does not pass [INT_MAX], every raw
    call the accessor makes is inside the bank. *)
Lemma raw_calls_in_bank (destination source : T) (offset : Z) (m : machine) :
  offset + int_sizeof T <= INT_MAX ->
  Forall event_in_bank (new_events m (sram.read destination m)) /\
  Forall event_in_bank (new_events m (sram.write source m)) /\
  Forall event_in_bank (new_events m (sram.read_offset destination offset m)) /\
  Forall event_in_bank (new_events m (sram.write_offset source offset m)).
Proof.
  intros _. apply raw_calls_bounded.
Qed.



End accessor_laws.

(** ** The bus configurator *)

Section configurator.
Context `{cfg : sram_config}.

Lemma wait_state_code_u16 : u16 (wait_state_code BN_CFG_SRAM_WAIT_STATE)
                            = wait_state_code BN_CFG_SRAM_WAIT_STATE.
Proof. destruct BN_CFG_SRAM_WAIT_STATE; reflexivity. Qed.

Lemma u16_lor (a b : Z) : u16 (Z.lor a b) = Z.lor (u16 a) (u16 b).
Proof. rewrite !u16_land. apply Z.land_lor_distr_l. Qed.

Lemma u16_idem (z : Z) : u16 (u16 z) = u16 z.
Proof. unfold u16. apply Z.mod_mod. lia. Qed.

Lemma wait_state_field_u16 (z : Z) : wait_state_field (u16 z) = wait_state_field z.
Proof.
  unfold wait_state_field. rewrite u16_land, <- Z.land_assoc. reflexivity.
Qed.

(** What [init] does to the machine: one store of the OR-ed value. *)
Lemma init_step (m : machine) :
  hw_sram.init m
  = let v := u16 (Z.lor (waitcnt m) (wait_state_code BN_CFG_SRAM_WAIT_STATE)) in
    Done hw_sram.save_type (log (RegStore v) (set_waitcnt v m)).
Proof. reflexivity. Qed.

(** The wait-state field after [init] is the OR of the field before and of
    the configured code. *)
Lemma init_wait_state_field (m : machine) :
  wait_state_field (waitcnt (final (hw_sram.init m)))
  = Z.lor (wait_state_field (waitcnt m)) (wait_state_code BN_CFG_SRAM_WAIT_STATE).
Proof.
  rewrite init_step. cbn [final log set_waitcnt waitcnt].
  rewrite wait_state_field_u16. unfold wait_state_field.
  now rewrite Z.land_lor_distr_l, wait_state_code_in_mask.
Qed.

Lemma lor_field_8 (r : Z) : Z.lor (wait_state_field r) 3 = 3.
Proof.
  unfold wait_state_field, SRAM_WAIT_MASK. apply Z.bits_inj'. intros n _.
  rewrite Z.lor_spec, Z.land_spec.
  destruct (Z.testbit r n), (Z.testbit 3 n); reflexivity.
Qed.

(** C4 (amended): from every machine, [init] returns the identification
    token after exactly one register-level write, the store of the
    wait-control register OR-ed with the configured code, and leaves the bank
    alone.  The wait-state field afterwards is the OR of the field before and
    of the code: it is the configured code whenever the field before had no
    bit outside the code, in particular when it was clear and, for the
    8-cycle code, always. *)
Theorem init_sets_wait_state (m : machine) :
  exists (m' : machine),
    hw_sram.init m = Done hw_sram.save_type m' /\
    new_events m (hw_sram.init m) = [RegStore (waitcnt m')] /\
    waitcnt m' = u16 (Z.lor (waitcnt m) (wait_state_code BN_CFG_SRAM_WAIT_STATE)) /\
    (0 <= waitcnt m < 2 ^ 16 ->
     waitcnt m' = Z.lor (waitcnt m) (wait_state_code BN_CFG_SRAM_WAIT_STATE)) /\
    sram m' = sram m /\
    wait_state_field (waitcnt m')
    = Z.lor (wait_state_field (waitcnt m)) (wait_state_code BN_CFG_SRAM_WAIT_STATE) /\
    (Z.lor (wait_state_field (waitcnt m)) (wait_state_code BN_CFG_SRAM_WAIT_STATE)
     = wait_state_code BN_CFG_SRAM_WAIT_STATE ->
     wait_state_field (waitcnt m') = wait_state_code BN_CFG_SRAM_WAIT_STATE) /\
    (wait_state_field (waitcnt m) = 0 ->
     wait_state_field (waitcnt m') = wait_state_code BN_CFG_SRAM_WAIT_STATE) /\
    (BN_CFG_SRAM_WAIT_STATE = BN_SRAM_WAIT_STATE_8 ->
     wait_state_field (waitcnt m') = wait_state_code BN_CFG_SRAM_WAIT_STATE).
Proof.
  pose proof (init_wait_state_field m) as Hfield.
  rewrite init_step in *. cbv zeta in *.
  eexists. split; [reflexivity|].
  unfold new_events. cbn [final log set_waitcnt waitcnt sram trace] in *.
  rewrite drop_app_length.
  split; [reflexivity|]. split; [reflexivity|].
  split; [intros Hr; now rewrite u16_lor, (u16_small _ Hr), wait_state_code_u16|].
  split; [reflexivity|]. split; [exact Hfield|]. rewrite Hfield.
  split; [auto|]. split.
  - intros ->. apply Z.lor_0_l.
  - intros ->. apply lor_field_8.
Qed.

(** C5: a second [init] returns the same token and leaves the wait-control
    register, and the bank, as the first one left them. *)
Theorem init_idempotent (m : machine) :
  exists (t : static_object) (m1 m2 : machine),
    hw_sram.init m = Done t m1 /\
    hw_sram.init m1 = Done t m2 /\
    waitcnt m2 = waitcnt m1 /\
    sram m2 = sram m1.
Proof.
  eexists _, _, _. rewrite !init_step. cbv zeta.
  split; [reflexivity|]. split; [reflexivity|].
  cbn [log set_waitcnt waitcnt sram]. split; [|reflexivity].
  rewrite !u16_lor, !u16_idem, <- Z.lor_assoc, Z.lor_diag. reflexivity.
Qed.

(** C10: on a 16-bit register value [r], [init] stores [r OR code]; every
    bit that was set stays set. *)
Theorem init_ors_wait_state (m : machine) :
  0 <= waitcnt m < 2 ^ 16 ->
  exists (t : static_object) (m' : machine),
    hw_sram.init m = Done t m' /\
    waitcnt m' = Z.lor (waitcnt m) (wait_state_code BN_CFG_SRAM_WAIT_STATE) /\
    new_events m (hw_sram.init m) = [RegStore (waitcnt m')] /\
    (forall i : Z, Z.testbit (waitcnt m) i = true -> Z.testbit (waitcnt m') i = true).
Proof.
  intros Hr. rewrite init_step. cbv zeta.
  eexists _, _. split; [reflexivity|].
  unfold new_events. cbn [final log set_waitcnt waitcnt trace].
  rewrite u16_lor, (u16_small _ Hr), wait_state_code_u16, drop_app_length.
  repeat split.
  intros i Hi. rewrite Z.lor_spec, Hi. reflexivity.
Qed.

(** Every call of [init], from every machine and under every configuration,
    returns the one constant object [save_type], whose bytes are the nine
    characters of "SRAM_V113" followed by the terminating zero byte. *)
Lemma init_returns_save_type (m : machine) :
  (exists m' : machine, hw_sram.init m = Done hw_sram.save_type m') /\
  obj_bytes hw_sram.save_type
  = ["S"; "R"; "A"; "M"; "_"; "V"; "1"; "1"; "3"; x00]%byte /\
  string_of_list_byte (take 9 (obj_bytes hw_sram.save_type)) = "SRAM_V113"%string /\
  obj_bytes hw_sram.save_type !! 9%nat = Some x00 /\
  Forall (fun b => b <> x00) (take 9 (obj_bytes hw_sram.save_type)).
Proof.
  split; [eexists; apply init_step|].
  repeat split.
  cbn. repeat constructor; discriminate.
Qed.

(** C7: [size()] is the configured size of the bank, a positive [int]; it
    takes no machine and returning it changes none. *)
Theorem size_constant :
  sram.size = hw_sram_size /\
  0 < sram.size <= INT_MAX /\
  forall m : machine, ret sram.size m = Done hw_sram_size m.
Proof.
  split; [reflexivity|]. split; [|reflexivity].
  unfold sram.size, hw_sram.size.
  split; [apply hw_sram_size_pos | apply hw_sram_size_int].
Qed.

End configurator.

(** ** Concrete scenarios on a bank of 32768 bytes *)

(** C4 (counterexample): configured for 4 cycles (code 0) on a register whose
    wait-state field holds 3 (8 cycles), [init] leaves the field at 3. *)
Lemma init_keeps_slower_wait_state :
  let cfg := sram_32k BN_SRAM_WAIT_STATE_4 in
  let m := filled x00 3 in
  machine_ok m /\
  wait_state_code BN_CFG_SRAM_WAIT_STATE = 0 /\
  wait_state_field (waitcnt (final (hw_sram.init m))) = 3 /\
  wait_state_field (waitcnt (final (hw_sram.init m)))
  <> wait_state_code BN_CFG_SRAM_WAIT_STATE.
Proof. vm_compute. repeat split; discriminate. Qed.


(** ** The theorems at the inputs of the spec's scenarios *)

(** C1 at the spec's scenario: 0xDEADBEEF written at offset 100 of an
    all-zero bank of 32768 bytes, and read back. *)
Lemma write_offset_read_offset_roundtrip_witness :
  bank_ok (cfg := sram_32k BN_SRAM_WAIT_STATE_8)
    (filled (cfg := sram_32k BN_SRAM_WAIT_STATE_8) x00 0) /\
  0 <= 100 /\
  100 + int_sizeof uint32_t <= @sram.size (sram_32k BN_SRAM_WAIT_STATE_8) /\
  exists (m1 m2 : machine) (d : uint32_t),
    @sram.write_offset (sram_32k BN_SRAM_WAIT_STATE_8) uint32_t _ _
      (uint32 3735928559) 100 (filled (cfg := sram_32k BN_SRAM_WAIT_STATE_8) x00 0) = Done tt m1 /\
    @sram.read_offset (sram_32k BN_SRAM_WAIT_STATE_8) uint32_t _ _
      (uint32 0) 100 m1 = Done d m2 /\
    to_bytes d = to_bytes (uint32 3735928559) /\
    d = uint32 3735928559 /\
    sram m2 = sram m1.
Proof.
  assert (Hok : bank_ok (cfg := sram_32k BN_SRAM_WAIT_STATE_8)
                  (filled (cfg := sram_32k BN_SRAM_WAIT_STATE_8) x00 0))
    by (vm_compute; reflexivity).
  assert (Hpos : 0 <= 100) by lia.
  assert (Hfit : 100 + int_sizeof uint32_t <= @sram.size (sram_32k BN_SRAM_WAIT_STATE_8))
    by (vm_compute; discriminate).
  split; [exact Hok|]. split; [exact Hpos|]. split; [exact Hfit|].
  exact (write_offset_read_offset_roundtrip (cfg := sram_32k BN_SRAM_WAIT_STATE_8)
           (uint32 3735928559) (uint32 0) 100 (filled (cfg := sram_32k BN_SRAM_WAIT_STATE_8) x00 0) Hok Hpos Hfit).
Defined.

(** C4 (amended) on a register that holds 0x4000 (wait-state field clear)
    and a build configured for 3 cycles. *)
Lemma init_sets_wait_state_witness :
  Z.lor (wait_state_field 16384) (wait_state_code BN_SRAM_WAIT_STATE_3)
  = wait_state_code BN_SRAM_WAIT_STATE_3 /\
  exists (m' : machine),
    @hw_sram.init (sram_32k BN_SRAM_WAIT_STATE_3)
      (filled (cfg := sram_32k BN_SRAM_WAIT_STATE_3) x00 16384)
    = Done hw_sram.save_type m' /\
    new_events (filled (cfg := sram_32k BN_SRAM_WAIT_STATE_3) x00 16384)
      (@hw_sram.init (sram_32k BN_SRAM_WAIT_STATE_3)
         (filled (cfg := sram_32k BN_SRAM_WAIT_STATE_3) x00 16384))
    = [RegStore (waitcnt m')] /\
    sram m' = sram (filled (cfg := sram_32k BN_SRAM_WAIT_STATE_3) x00 16384) /\
    wait_state_field (waitcnt m') = wait_state_code BN_SRAM_WAIT_STATE_3.
Proof.
  split; [reflexivity|].
  destruct (init_sets_wait_state (cfg := sram_32k BN_SRAM_WAIT_STATE_3)
              (filled (cfg := sram_32k BN_SRAM_WAIT_STATE_3) x00 16384))
    as (m' & Hinit & Hone & _ & _ & Hbank & _ & Hfield & _).
  exists m'. split; [exact Hinit|]. split; [exact Hone|]. split; [exact Hbank|].
  exact (Hfield eq_refl).
Defined.



(** C6 on a 4-byte value and a bank of 32768 bytes. *)
Lemma read_write_are_offset_0_witness :
  @sram.fits (sram_32k BN_SRAM_WAIT_STATE_8) uint32_t _ /\
  (@sram.read (sram_32k BN_SRAM_WAIT_STATE_8) uint32_t _ _ (uint32 0) (filled (cfg := sram_32k BN_SRAM_WAIT_STATE_8) x00 0)
   = @sram.read_offset (sram_32k BN_SRAM_WAIT_STATE_8) uint32_t _ _ (uint32 0) 0 (filled (cfg := sram_32k BN_SRAM_WAIT_STATE_8) x00 0) /\
   @sram.write (sram_32k BN_SRAM_WAIT_STATE_8) uint32_t _ _ (uint32 7) (filled (cfg := sram_32k BN_SRAM_WAIT_STATE_8) x00 0)
   = @sram.write_offset (sram_32k BN_SRAM_WAIT_STATE_8) uint32_t _ _ (uint32 7) 0 (filled (cfg := sram_32k BN_SRAM_WAIT_STATE_8) x00 0)).
Proof.
  assert (Hfits : @sram.fits (sram_32k BN_SRAM_WAIT_STATE_8) uint32_t _)
    by (unfold sram.fits; vm_compute; discriminate).
  split; [exact Hfits|].
  exact (@read_write_are_offset_0 (sram_32k BN_SRAM_WAIT_STATE_8) uint32_t _ _
           (uint32 0) (uint32 7) (filled (cfg := sram_32k BN_SRAM_WAIT_STATE_8) x00 0)).
Defined.

(** C9 on a one-byte value and a bank of 32768 bytes. *)
Lemma read_write_never_fail_witness :
  trivially_copyable_laws uint8_t /\
  @sram.fits (sram_32k BN_SRAM_WAIT_STATE_8) uint8_t _ /\
  @sram.read (sram_32k BN_SRAM_WAIT_STATE_8) uint8_t _ _ x00 (filled (cfg := sram_32k BN_SRAM_WAIT_STATE_8) xff 0)
  = Done xff (log (RawRead 1 0) (filled (cfg := sram_32k BN_SRAM_WAIT_STATE_8) xff 0)) /\
  is_halted (@sram.write (sram_32k BN_SRAM_WAIT_STATE_8) uint8_t _ _ x2a (filled (cfg := sram_32k BN_SRAM_WAIT_STATE_8) xff 0))
  = false.
Proof.
  split; [exact uint8_laws|].
  split; [unfold sram.fits; vm_compute; discriminate|].
  destruct (@read_write_never_fail (sram_32k BN_SRAM_WAIT_STATE_8) uint8_t _ _ _
              x00 x2a (filled (cfg := sram_32k BN_SRAM_WAIT_STATE_8) xff 0)) as (Hr & Hw & _).
  split.
  - rewrite Hr. reflexivity.
  - rewrite Hw. reflexivity.
Defined.

(** C10 on a register that holds 0x4014 and a build configured for 8
    cycles. *)
Lemma init_ors_wait_state_witness :
  0 <= 16404 < 2 ^ 16 /\
  exists (t : static_object) (m' : machine),
    @hw_sram.init (sram_32k BN_SRAM_WAIT_STATE_8)
      (filled (cfg := sram_32k BN_SRAM_WAIT_STATE_8) x00 16404) = Done t m' /\
    waitcnt m' = 16407.
Proof.
  assert (Hr : 0 <= 16404 < 2 ^ 16) by lia.
  split; [exact Hr|].
  destruct (init_ors_wait_state (cfg := sram_32k BN_SRAM_WAIT_STATE_8)
              (filled (cfg := sram_32k BN_SRAM_WAIT_STATE_8) x00 16404) Hr)
    as (t & m' & Hinit & Hv & _).
  exists t, m'. split; [exact Hinit|]. rewrite Hv. reflexivity.
Defined.

(** The spec's second scenario: a 4-byte value at offset 32765 of a bank of
    32768 bytes is refused by the second assertion, and the bank is not
    touched. *)
Example write_offset_32765_halts (m : machine) :
  @sram.write_offset (sram_32k BN_SRAM_WAIT_STATE_8) uint32_t _ _
    (uint32 3735928559) 32765 m
  = Halted [Str "Source size and offset are too high: "; Int 4; Str " - ";
            Int 32765] m.
Proof.
  refine (proj2 (offset_too_high_halts (cfg := sram_32k BN_SRAM_WAIT_STATE_8)
                   (uint32 0) (uint32 3735928559) 32765 m _ _));
    vm_compute; congruence.
Qed.

(** * The game loop *)

Module pong_facts.
Import pong.

(** Case analysis on the tests of the loop body, turned into (in)equalities. *)
Ltac tests :=
  repeat match goal with
  | |- context [if ?b then _ else _] => destruct b eqn:?
  | H : context [if ?b then _ else _] |- _ => destruct b eqn:?
  end;
  repeat match goal with
  | H : andb _ _ = true |- _ => apply andb_true_iff in H; destruct H
  | H : andb _ _ = false |- _ => apply andb_false_iff in H
  | H : orb _ _ = true |- _ => apply orb_true_iff in H
  | H : orb _ _ = false |- _ => apply orb_false_iff in H; destruct H
  | H : (_ <? _) = true |- _ => apply Z.ltb_lt in H
  | H : (_ <? _) = false |- _ => apply Z.ltb_ge in H
  | H : (_ =? _) = true |- _ => apply Z.eqb_eq in H
  | H : (_ =? _) = false |- _ => apply Z.eqb_neq in H
  end.

Lemma int_mul_m1 (d : Z) : Z.abs d <= 6 -> int_mul d (-1) = - d.
Proof.
  intros Hd. unfold int_mul. rewrite int_wrap_id; [lia|].
  unfold is_int, INT_MIN, INT_MAX. lia.
Qed.

Lemma direction_range (r : Z) : -6 <= direction r <= 2.
Proof.
  unfold direction.
  pose proof (Z.rem_bound_abs r 5 ltac:(lia)). lia.
Qed.

Lemma direction_nonneg (r : Z) : 0 <= r -> -2 <= direction r <= 2.
Proof.
  intros Hr. unfold direction.
  pose proof (Z.rem_bound_pos r 5 Hr ltac:(lia)). lia.
Qed.

Section with_random.
Variable random : nat -> Z.

(** Whatever the loop returns moves on both axes, and each component is an
    old one or some [direction (random j)]. *)
Lemma launch_loop_sound (P : Z -> Prop) (fuel i : nat) (dx dy dx' dy' : Z) (j : nat) :
  (forall n, P (direction (random n))) -> P dx -> P dy ->
  launch_loop fuel random i dx dy = Some (dx', dy', j) ->
  dx' <> 0 /\ dy' <> 0 /\ P dx' /\ P dy'.
Proof.
  intros HP. revert i dx dy.
  induction fuel as [|fuel IH]; intros i dx dy Hdx Hdy; cbn [launch_loop];
    destruct ((dx =? 0) || (dy =? 0)) eqn:E; intros Hrun;
    try discriminate; try (eapply IH; [| |exact Hrun]; apply HP);
    injection Hrun as <- <- <-; tests; auto.
Qed.

Lemma launch_loop_moving (fuel i : nat) (dx dy : Z) :
  dx <> 0 -> dy <> 0 -> launch_loop fuel random i dx dy = Some (dx, dy, i).
Proof.
  intros Hx Hy. destruct fuel; cbn [launch_loop];
    destruct (Z.eqb_spec dx 0), (Z.eqb_spec dy 0); try contradiction; reflexivity.
Qed.

Lemma launch_loop_first_good (n fuel i : nat) (dx dy : Z) :
  dx = 0 \/ dy = 0 ->
  (forall k, (k < n)%nat -> ~ good_pair random (i + 2 * k)) ->
  good_pair random (i + 2 * n) ->
  (n < fuel)%nat ->
  launch_loop fuel random i dx dy
  = Some (direction (random (i + 2 * n)), direction (random (S (i + 2 * n))),
          (i + 2 * n + 2)%nat).
Proof.
  revert fuel i dx dy. induction n as [|n IH]; intros fuel i dx dy Hrest Hbad Hgood Hfuel.
  - destruct fuel as [|fuel]; [lia|]. cbn [launch_loop].
    replace ((dx =? 0) || (dy =? 0)) with true
      by (destruct Hrest as [-> | ->]; [reflexivity | symmetry; apply orb_true_r]).
    replace (i + 2 * 0)%nat with i in * by lia. destruct Hgood as [Hx Hy].
    rewrite launch_loop_moving by assumption. do 2 f_equal. lia.
  - destruct fuel as [|fuel]; [lia|]. cbn [launch_loop].
    replace ((dx =? 0) || (dy =? 0)) with true
      by (destruct Hrest as [-> | ->]; [reflexivity | symmetry; apply orb_true_r]).
    assert (Hfirst : ~ good_pair random i)
      by (replace i with (i + 2 * 0)%nat by lia; apply Hbad; lia).
    rewrite (IH fuel (S (S i))).
    + replace (S (S i) + 2 * n)%nat with (i + 2 * S n)%nat by lia. reflexivity.
    + unfold good_pair in Hfirst.
      destruct (Z.eq_dec (direction (random i)) 0); [now left|].
      destruct (Z.eq_dec (direction (random (S i))) 0); [now right|]. tauto.
    + intros k Hk. replace (S (S i) + 2 * k)%nat with (i + 2 * S k)%nat by lia.
      apply Hbad. lia.
    + replace (S (S i) + 2 * n)%nat with (i + 2 * S n)%nat by lia. exact Hgood.
    + lia.
Qed.

(** What [launch] can do: nothing, or a serve from rest. *)
Lemma launch_cases (fuel : nat) (k : keypad) (g g1 : game) :
  launch fuel random k g = Some g1 ->
  (g1 = g /\ (a_pressed k = false \/ delta_x g <> 0 \/ delta_y g <> 0)) \/
  (a_pressed k = true /\ delta_x g = 0 /\ delta_y g = 0 /\
   exists dx dy i,
     launch_loop fuel random (rng g) 0 0 = Some (dx, dy, i) /\
     g1 = emit (Play pong)
            (set_rng i (set_delta dx dy (show [Str "Score: "; Int (score g)] g)))).
Proof.
  unfold launch. intros Hl.
  destruct (a_pressed k && (delta_x g =? 0) && (delta_y g =? 0)) eqn:E.
  - right. tests. cbn [show rng delta_x delta_y] in Hl.
    destruct (launch_loop fuel random (rng g) (delta_x g) (delta_y g))
      as [[[dx dy] i]|] eqn:El; [|discriminate].
    injection Hl as <-. repeat split; try assumption.
    exists dx, dy, i. split; [|reflexivity]. congruence.
  - left. injection Hl as <-. split; [reflexivity|].
    destruct (a_pressed k); [right|now left].
    destruct (Z.eqb_spec (delta_x g) 0); [right|now left].
    apply Z.eqb_neq. exact E.
Qed.

Lemma paddles_move (k : keypad) (g : game) :
  paddles_ok g -> paddles_ok (move_right_paddle (move_left_paddle k g)).
Proof.
  unfold paddles_ok, move_right_paddle, move_left_paddle. destruct g; cbn.
  intros H. tests; cbn in *; tests; lia.
Qed.

(** From the move of the ball to the end of the turn. *)
Lemma rally_ball_ok (D : Z) (k : keypad) (g : game) :
  D <= 6 -> ball_ok D g ->
  ball_ok D (log_score k (walls (paddle_zone (move_ball g)))).
Proof.
  intros HD Hok.
  assert (Hx : int_mul (delta_x g) (-1) = - delta_x g)
    by (apply int_mul_m1; unfold ball_ok in Hok; lia).
  assert (Hy : int_mul (delta_y g) (-1) = - delta_y g)
    by (apply int_mul_m1; unfold ball_ok in Hok; lia).
  unfold ball_ok, log_score, walls, paddle_zone, new_round, move_ball in *.
  destruct g; cbn in *. rewrite ?Hx, ?Hy.
  tests; cbn in *; rewrite ?Hx, ?Hy; lia.
Qed.

Lemma rally_paddles (k : keypad) (g : game) :
  left_paddle_y (log_score k (walls (paddle_zone (move_ball g)))) = left_paddle_y g /\
  right_paddle_y (log_score k (walls (paddle_zone (move_ball g)))) = right_paddle_y g /\
  enemy_going_up (log_score k (walls (paddle_zone (move_ball g)))) = enemy_going_up g /\
  rng (log_score k (walls (paddle_zone (move_ball g)))) = rng g.
Proof.
  unfold log_score, walls, paddle_zone, new_round, move_ball.
  destruct g; cbn. tests; cbn; auto.
Qed.

Lemma frame_keeps_ok (D : Z) (fuel : nat) (k : keypad) (g g' : game) :
  (forall n, Z.abs (direction (random n)) <= D) -> D <= 6 ->
  paddles_ok g /\ ball_ok D g ->
  frame fuel random k g = Some g' ->
  paddles_ok g' /\ ball_ok D g'.
Proof.
  intros Hrandom HD [Hp Hb]. unfold frame.
  destruct (launch fuel random k (move_right_paddle (move_left_paddle k g)))
    as [g1|] eqn:El; [|discriminate].
  intros [= <-].
  pose proof (paddles_move k g Hp) as Hp1.
  assert (Hb1 : ball_ok D (move_right_paddle (move_left_paddle k g))).
  { clear - Hb. unfold ball_ok, move_right_paddle, move_left_paddle in *.
    destruct g; cbn in *. tests; cbn; exact Hb. }
  assert (Hg1 : paddles_ok g1 /\ ball_ok D g1).
  { apply launch_cases in El.
    destruct El as [[-> _]|(_ & Hdx & Hdy & dx & dy & i & Hloop & ->)]; [auto|].
    apply (launch_loop_sound (fun d => Z.abs d <= D)) in Hloop;
      [|exact Hrandom|pose proof (Hrandom 0%nat); lia ..].
    split; [exact Hp1|].
    unfold ball_ok in Hb1 |- *. right. cbn. lia. }
  destruct Hg1 as [Hpg1 Hbg1].
  split; [|apply rally_ball_ok; assumption].
  destruct (rally_paddles k g1) as (Hl & Hr & _).
  unfold paddles_ok in *. rewrite Hl, Hr. exact Hpg1.
Qed.

Lemma reachable_ok (D : Z) (g : game) :
  (forall n, Z.abs (direction (random n)) <= D) -> D <= 6 ->
  reachable random g -> paddles_ok g /\ ball_ok D g.
Proof.
  intros Hrandom HD Hreach. induction Hreach as [|g g' k fuel _ IH Hframe].
  - split; [unfold paddles_ok; cbn; lia|]. left. cbn. auto.
  - exact (frame_keeps_ok D fuel k g g' Hrandom HD IH Hframe).
Qed.

Lemma random_speed_6 : forall n, Z.abs (direction (random n)) <= 6.
Proof. intros n. pose proof (direction_range (random n)). lia. Qed.

Lemma random_speed_2 :
  (forall n, 0 <= random n) -> forall n, Z.abs (direction (random n)) <= 2.
Proof. intros Hpos n. pose proof (direction_nonneg (random n) (Hpos n)). lia. Qed.

(** X1: both paddles stay between -48 and 48 at every turn of the loop. *)
Theorem paddles_stay_in_range (g : game) :
  reachable random g ->
  -48 <= left_paddle_y g <= 48 /\ -48 <= right_paddle_y g <= 48.
Proof.
  intros Hreach.
  exact (proj1 (reachable_ok 6 g random_speed_6 ltac:(lia) Hreach)).
Qed.

(** X2: whatever numbers the generator returns, the ball moves at most 6
    pixels per frame on each axis and stays within 106 pixels of the centre
    horizontally and 70 vertically. *)
Theorem ball_stays_in_court (g : game) :
  reachable random g ->
  Z.abs (delta_x g) <= 6 /\ Z.abs (delta_y g) <= 6 /\
  -106 <= ball_x g <= 106 /\ -70 <= ball_y g <= 70.
Proof.
  intros Hreach.
  destruct (reachable_ok 6 g random_speed_6 ltac:(lia) Hreach) as [_ Hb].
  unfold ball_ok in Hb. lia.
Qed.

(** X3: when the generator only returns numbers that are not negative, the
    ball moves 1 or 2 pixels per frame on each axis (or rests) and stays
    within 102 pixels of the centre horizontally and 66 vertically. *)
Theorem ball_stays_in_court_nonneg (g : game) :
  (forall n, 0 <= random n) ->
  reachable random g ->
  Z.abs (delta_x g) <= 2 /\ Z.abs (delta_y g) <= 2 /\
  -102 <= ball_x g <= 102 /\ -66 <= ball_y g <= 66.
Proof.
  intros Hpos Hreach.
  destruct (reachable_ok 2 g (random_speed_2 Hpos) ltac:(lia) Hreach) as [_ Hb].
  unfold ball_ok in Hb. lia.
Qed.

(** X4: the ball never moves along one axis only, and a ball at rest is in
    the centre. *)
Theorem ball_rests_or_moves_diagonally (g : game) :
  reachable random g ->
  (delta_x g = 0 <-> delta_y g = 0) /\
  (delta_x g = 0 -> ball_x g = 0 /\ ball_y g = 0).
Proof.
  intros Hreach.
  destruct (reachable_ok 6 g random_speed_6 ltac:(lia) Hreach) as [_ Hb].
  unfold ball_ok in Hb. lia.
Qed.

(** X5: a ball past a paddle line or past the top or bottom line is on its
    way back, and one more move brings it back inside the line. *)
Theorem ball_outside_heads_back (g : game) :
  reachable random g ->
  (ball_x g < -100 -> 0 < delta_x g /\ -100 <= ball_x g + delta_x g) /\
  (100 < ball_x g -> delta_x g < 0 /\ ball_x g + delta_x g <= 100) /\
  (ball_y g < -64 -> 0 < delta_y g /\ -64 <= ball_y g + delta_y g) /\
  (64 < ball_y g -> delta_y g < 0 /\ ball_y g + delta_y g <= 64).
Proof.
  intros Hreach.
  destruct (reachable_ok 6 g random_speed_6 ltac:(lia) Hreach) as [_ Hb].
  unfold ball_ok in Hb. lia.
Qed.

(** Without a serve, [launch] returns its argument whatever the fuel and the
    generator. *)
Lemma launch_idle (fuel : nat) (random' : nat -> Z) (k : keypad) (g : game) :
  a_pressed k = false \/ delta_x g <> 0 \/ delta_y g <> 0 ->
  launch fuel random' k g = Some g.
Proof.
  intros Hidle. unfold launch.
  destruct (a_pressed k && (delta_x g =? 0) && (delta_y g =? 0)) eqn:E;
    [|reflexivity].
  tests. destruct Hidle as [Hi|[Hi|Hi]]; congruence.
Qed.

Lemma paddles_move_ball (k : keypad) (g : game) :
  ball_x (move_right_paddle (move_left_paddle k g)) = ball_x g /\
  ball_y (move_right_paddle (move_left_paddle k g)) = ball_y g /\
  delta_x (move_right_paddle (move_left_paddle k g)) = delta_x g /\
  delta_y (move_right_paddle (move_left_paddle k g)) = delta_y g /\
  score (move_right_paddle (move_left_paddle k g)) = score g /\
  rng (move_right_paddle (move_left_paddle k g)) = rng g /\
  text (move_right_paddle (move_left_paddle k g)) = text g.
Proof.
  unfold move_right_paddle, move_left_paddle. destruct g; cbn.
  tests; cbn; tests; cbn; auto 10.
Qed.

(** X6: unless A is pressed while the ball rests, a turn of the loop ends
    whatever the bound on the serving loop, does not depend on the generator
    and draws no number from it. *)
Theorem frame_without_serve (k : keypad) (g : game) :
  a_pressed k = false \/ delta_x g <> 0 \/ delta_y g <> 0 ->
  exists g' : game,
    (forall (fuel : nat) (random' : nat -> Z), frame fuel random' k g = Some g') /\
    rng g' = rng g.
Proof.
  intros Hidle.
  destruct (paddles_move_ball k g) as (_ & _ & Hdx & Hdy & _ & Hrng & _).
  eexists. split.
  - intros fuel random'. unfold frame.
    rewrite launch_idle by (rewrite Hdx, Hdy; exact Hidle). reflexivity.
  - destruct (rally_paddles k (move_right_paddle (move_left_paddle k g)))
      as (_ & _ & _ & ->). exact Hrng.
Qed.

(** X7: while the ball moves, pressing A changes nothing. *)
Theorem a_ignored_while_ball_moves (fuel : nat) (k k' : keypad) (g : game) :
  delta_x g <> 0 \/ delta_y g <> 0 ->
  up_held k' = up_held k -> down_held k' = down_held k ->
  b_pressed k' = b_pressed k ->
  frame fuel random k' g = frame fuel random k g.
Proof.
  intros Hmoving Hup Hdown Hb.
  assert (Hpad : move_left_paddle k' g = move_left_paddle k g)
    by (unfold move_left_paddle; now rewrite Hup, Hdown).
  destruct (paddles_move_ball k g) as (_ & _ & Hdx & Hdy & _).
  unfold frame. rewrite Hpad.
  rewrite !launch_idle by (rewrite Hdx, Hdy; auto).
  unfold log_score. now rewrite Hb.
Qed.

(** From the move of the ball to the end of the turn, for a ball that obeys
    [ball_ok]: who scores, and what happens to speed and position. *)
Lemma rally_outcome (k : keypad) (g : game) :
  ball_ok 6 g ->
  let g' := log_score k (walls (paddle_zone (move_ball g))) in
  let x := ball_x g + delta_x g in
  let y := ball_y g + delta_y g in
  (x < -100 /\ 32 <= Z.abs (y - left_paddle_y g) ->
   score g' = int_add (score g) (-1) /\ round_over g') /\
  (100 < x /\ 32 <= Z.abs (y - right_paddle_y g) ->
   score g' = int_add (score g) 1 /\ round_over g') /\
  (~ (x < -100 /\ 32 <= Z.abs (y - left_paddle_y g)) ->
   ~ (100 < x /\ 32 <= Z.abs (y - right_paddle_y g)) ->
   score g' = score g /\ text g' = text g /\ ball_x g' = x /\ ball_y g' = y /\
   Z.abs (delta_x g') = Z.abs (delta_x g) /\
   Z.abs (delta_y g') = Z.abs (delta_y g)).
Proof.
  intros Hok.
  assert (Hx : int_mul (delta_x g) (-1) = - delta_x g)
    by (apply int_mul_m1; unfold ball_ok in Hok; lia).
  assert (Hy : int_mul (delta_y g) (-1) = - delta_y g)
    by (apply int_mul_m1; unfold ball_ok in Hok; lia).
  clear Hok.
  unfold round_over, log_score, walls, paddle_zone, new_round, move_ball in *.
  destruct g; cbn in *. rewrite ?Hx, ?Hy.
  tests; cbn in *; rewrite ?Hx, ?Hy; repeat split; intros; try reflexivity; lia.
Qed.

Lemma paddles_move_paddles (k : keypad) (g : game) :
  left_paddle_y (move_right_paddle (move_left_paddle k g))
  = left_paddle_y (move_left_paddle k g) /\
  right_paddle_y (move_right_paddle (move_left_paddle k g))
  = right_paddle_y (move_right_paddle g) /\
  enemy_going_up (move_right_paddle (move_left_paddle k g))
  = enemy_going_up (move_right_paddle g).
Proof.
  unfold move_right_paddle, move_left_paddle. destruct g; cbn.
  tests; cbn in *; tests; cbn in *; repeat split; (reflexivity || lia || congruence).
Qed.

(** X8: the score moves only when a point ends.  With the ball moved by its
    deltas to [(x, y)]: past the left line and 32 pixels or more from the
    player's paddle the score goes down by one; past the right line and 32
    pixels or more from the enemy's paddle it goes up by one; in both cases
    the ball is put to rest in the centre and the score is shown.  In every
    other turn the score stays. *)
Theorem score_moves_when_point_ends (fuel : nat) (k : keypad) (g g' : game) :
  reachable random g ->
  frame fuel random k g = Some g' ->
  let x := ball_x g + delta_x g in
  let y := ball_y g + delta_y g in
  (x < -100 /\ 32 <= Z.abs (y - left_paddle_y g') ->
   score g' = int_add (score g) (-1) /\ round_over g') /\
  (100 < x /\ 32 <= Z.abs (y - right_paddle_y g') ->
   score g' = int_add (score g) 1 /\ round_over g') /\
  (~ (x < -100 /\ 32 <= Z.abs (y - left_paddle_y g')) ->
   ~ (100 < x /\ 32 <= Z.abs (y - right_paddle_y g')) ->
   score g' = score g).
Proof.
  intros Hreach Hframe x y. subst x y.
  destruct (reachable_ok 6 g random_speed_6 ltac:(lia) Hreach) as [Hp Hb].
  pose proof (frame_keeps_ok 6 fuel k g g' random_speed_6 ltac:(lia)
                (conj Hp Hb) Hframe) as [_ Hb'].
  unfold frame in Hframe.
  destruct (launch fuel random k (move_right_paddle (move_left_paddle k g)))
    as [g1|] eqn:El; [|discriminate].
  injection Hframe as <-.
  destruct (paddles_move_ball k g) as (Hbx & Hby & Hdx & Hdy & Hs & _).
  destruct (rally_paddles k g1) as (Hl & Hr & _). rewrite Hl, Hr.
  apply launch_cases in El.
  destruct El as [[-> _]|(_ & Hdx0 & Hdy0 & dx & dy & i & Hloop & ->)].
  - assert (Hb0 : ball_ok 6 (move_right_paddle (move_left_paddle k g)))
      by (unfold ball_ok; rewrite Hbx, Hby, Hdx, Hdy; exact Hb).
    pose proof (rally_outcome k _ Hb0) as Hout. cbv zeta in Hout.
    rewrite Hbx, Hby, Hdx, Hdy, Hs in Hout.
    destruct Hout as (H1 & H2 & H3).
    split; [exact H1|]. split; [exact H2|].
    intros Hn1 Hn2. exact (proj1 (H3 Hn1 Hn2)).
  - apply (launch_loop_sound (fun d => Z.abs d <= 6)) in Hloop;
      [|exact random_speed_6|lia|lia].
    rewrite Hdx in Hdx0. rewrite Hdy in Hdy0. rewrite Hs.
    assert (Hrest : ball_x g = 0 /\ ball_y g = 0) by (unfold ball_ok in Hb; lia).
    set (g1 := emit _ _).
    assert (Hb1 : ball_ok 6 g1)
      by (right; subst g1; cbn; rewrite Hbx, Hby; lia).
    pose proof (rally_outcome k g1 Hb1) as Hout. cbv zeta in Hout.
    subst g1. cbn [emit set_rng set_delta show ball_x ball_y delta_x delta_y
                   left_paddle_y right_paddle_y score] in Hout.
    rewrite Hbx, Hby, Hs in Hout. destruct Hout as (_ & _ & H3).
    split; [intros [? ?]; lia|]. split; [intros [? ?]; lia|].
    intros _ _. apply H3; lia.
Qed.

(** X9: within a rally the ball keeps its speed on both axes: a turn that
    starts with the ball moving ends with the same two speeds, or with the
    ball at rest. *)
Theorem rally_keeps_speed (fuel : nat) (k : keypad) (g g' : game) :
  reachable random g ->
  delta_x g <> 0 ->
  frame fuel random k g = Some g' ->
  (delta_x g' = 0 /\ delta_y g' = 0 /\ ball_x g' = 0 /\ ball_y g' = 0) \/
  (Z.abs (delta_x g') = Z.abs (delta_x g) /\
   Z.abs (delta_y g') = Z.abs (delta_y g)).
Proof.
  intros Hreach Hmoving Hframe.
  destruct (reachable_ok 6 g random_speed_6 ltac:(lia) Hreach) as [Hp Hb].
  destruct (paddles_move_ball k g) as (Hbx & Hby & Hdx & Hdy & Hs & _).
  unfold frame in Hframe.
  rewrite launch_idle in Hframe by (rewrite Hdx; auto).
  injection Hframe as <-.
  assert (Hb0 : ball_ok 6 (move_right_paddle (move_left_paddle k g)))
    by (unfold ball_ok; rewrite Hbx, Hby, Hdx, Hdy; exact Hb).
  pose proof (rally_outcome k _ Hb0) as Hout. cbv zeta in Hout.
  rewrite Hdx, Hdy in Hout. destruct Hout as (H1 & H2 & H3).
  unfold round_over in *.
  match type of H1 with ?A -> _ =>
    destruct (Decidable.dec_and _ _ (Z.lt_decidable _ _) (Z.le_decidable _ _)
              : Decidable.decidable A) as [Ha|Ha] end;
    [left; apply H1 in Ha; tauto|].
  match type of H2 with ?A -> _ =>
    destruct (Decidable.dec_and _ _ (Z.lt_decidable _ _) (Z.le_decidable _ _)
              : Decidable.decidable A) as [Hc|Hc] end;
    [left; apply H2 in Hc; tauto|].
  right. specialize (H3 Ha Hc). tauto.
Qed.

(** X10: a serve keeps the first pair of draws whose two directions are
    both other than 0: given enough turns for the serving loop, the turn ends
    with the ball one step from the centre along these directions, the draws
    up to that pair consumed and the score shown. *)
Theorem serve_takes_first_good_pair (n fuel : nat) (k : keypad) (g : game) :
  reachable random g ->
  a_pressed k = true -> delta_x g = 0 -> delta_y g = 0 ->
  (forall j, (j < n)%nat -> ~ good_pair random (rng g + 2 * j)) ->
  good_pair random (rng g + 2 * n) ->
  (n < fuel)%nat ->
  exists g' : game,
    frame fuel random k g = Some g' /\
    delta_x g' = direction (random (rng g + 2 * n)) /\
    delta_y g' = direction (random (S (rng g + 2 * n))) /\
    ball_x g' = delta_x g' /\ ball_y g' = delta_y g' /\
    rng g' = (rng g + 2 * n + 2)%nat /\
    score g' = score g /\
    text g' = [Str "Score: "; Int (score g)].
Proof.
  intros Hreach Ha Hdx0 Hdy0 Hbad Hgood Hfuel.
  destruct (reachable_ok 6 g random_speed_6 ltac:(lia) Hreach) as [Hp Hb].
  destruct (paddles_move_ball k g) as (Hbx & Hby & Hdx & Hdy & Hs & Hrng & Ht).
  assert (Hrest : ball_x g = 0 /\ ball_y g = 0) by (unfold ball_ok in Hb; lia).
  unfold frame, launch. cbn [show rng delta_x delta_y].
  rewrite Ha, Hdx, Hdy, Hdx0, Hdy0, Hrng. cbn [Z.eqb andb].
  rewrite (launch_loop_first_good n fuel (rng g) 0 0) by auto.
  set (dx := direction (random (rng g + 2 * n))) in *.
  set (dy := direction (random (S (rng g + 2 * n)))) in *.
  assert (Hdxr : Z.abs dx <= 6) by apply random_speed_6.
  assert (Hdyr : Z.abs dy <= 6) by apply random_speed_6.
  destruct Hgood as [Hgx Hgy]. fold dx dy in Hgx, Hgy.
  set (g1 := emit _ _).
  assert (Hb1 : ball_ok 6 g1)
    by (right; subst g1; cbn; rewrite Hbx, Hby; lia).
  eexists. split; [reflexivity|].
  pose proof (rally_outcome k g1 Hb1) as Hout. cbv zeta in Hout.
  destruct (rally_paddles k g1) as (_ & _ & _ & Hrng1).
  destruct Hout as (_ & _ & H3).
  assert (Hg1 : ball_x g1 = 0 /\ ball_y g1 = 0 /\ delta_x g1 = dx /\ delta_y g1 = dy)
    by (subst g1; cbn; rewrite Hbx, Hby; lia).
  destruct H3 as (H3s & H3t & H3x & H3y & H3dx & H3dy); [lia|lia|].
  assert (Hkeep : delta_x (log_score k (walls (paddle_zone (move_ball g1)))) = dx /\
                  delta_y (log_score k (walls (paddle_zone (move_ball g1)))) = dy).
  { clear - Hg1 Hdxr Hdyr. destruct Hg1 as (Hx & Hy & Hdx & Hdy).
    unfold log_score, walls, paddle_zone, move_ball.
    destruct g1; cbn in *. subst. tests; cbn in *; tests; auto; lia. }
  destruct Hkeep as [Hkx Hky].
  rewrite Hkx, Hky, H3x, H3y, Hrng1, H3s, H3t.
  subst g1. cbn. rewrite Hbx, Hby, Hs. repeat split; lia.
Qed.

(** X11: if from the current draw on no pair of draws gives two directions
    other than 0, the serving loop never ends: the turn has no result,
    whatever the bound. *)
Theorem serve_never_ends (fuel : nat) (k : keypad) (g : game) :
  a_pressed k = true -> delta_x g = 0 -> delta_y g = 0 ->
  (forall j, ~ good_pair random (rng g + 2 * j)) ->
  frame fuel random k g = None.
Proof.
  intros Ha Hdx0 Hdy0 Hbad.
  destruct (paddles_move_ball k g) as (_ & _ & Hdx & Hdy & _ & Hrng & _).
  unfold frame, launch. cbn [show rng delta_x delta_y].
  rewrite Ha, Hdx, Hdy, Hdx0, Hdy0, Hrng. cbn [Z.eqb andb].
  assert (Hloop : forall f i dx dy, dx = 0 \/ dy = 0 ->
            (forall j, ~ good_pair random (i + 2 * j)) ->
            launch_loop f random i dx dy = None).
  { induction f as [|f IH]; intros i dx dy Hrest Hb; cbn [launch_loop];
      (replace ((dx =? 0) || (dy =? 0)) with true
        by (destruct Hrest as [-> | ->];
            [reflexivity | symmetry; apply orb_true_r])); [reflexivity|].
    apply IH.
    - specialize (Hb 0%nat). replace (i + 2 * 0)%nat with i in Hb by lia.
      unfold good_pair in Hb.
      destruct (Z.eq_dec (direction (random i)) 0); [now left|].
      destruct (Z.eq_dec (direction (random (S i))) 0); [now right|]. tauto.
    - intros j. replace (S (S i) + 2 * j)%nat with (i + 2 * S j)%nat by lia.
      apply Hb. }
  rewrite Hloop by auto. reflexivity.
Qed.

(** The enemy's paddle, on its own. *)
Lemma enemy_after_add (n m : nat) (g : game) :
  enemy_after (n + m) g = enemy_after m (enemy_after n g).
Proof. revert g. induction n as [|n IH]; intros g; cbn; [reflexivity | apply IH]. Qed.

Lemma enemy_descends (n : nat) (y : Z) (g : game) :
  y + Z.of_nat n <= 48 ->
  enemy_after n (set_enemy false y g) = set_enemy false (y + Z.of_nat n) g.
Proof.
  revert y. induction n as [|n IH]; intros y Hy.
  - cbn. now rewrite Z.add_0_r.
  - cbn [enemy_after]. unfold move_right_paddle. cbn.
    destruct (Z.ltb_spec y 48); [|lia].
    change (enemy_after n (set_enemy false (y + 1) g)
            = set_enemy false (y + Z.of_nat (S n)) g).
    rewrite IH by lia. f_equal. lia.
Qed.

Lemma enemy_ascends (n : nat) (y : Z) (g : game) :
  -48 <= y - Z.of_nat n ->
  enemy_after n (set_enemy true y g) = set_enemy true (y - Z.of_nat n) g.
Proof.
  revert y. induction n as [|n IH]; intros y Hy.
  - cbn. now rewrite Z.sub_0_r.
  - cbn [enemy_after]. unfold move_right_paddle. cbn.
    destruct (Z.ltb_spec (-48) y); [|lia].
    change (enemy_after n (set_enemy true (y - 1) g)
            = set_enemy true (y - Z.of_nat (S n)) g).
    rewrite IH by lia. f_equal. lia.
Qed.

Lemma enemy_turns (g : game) :
  enemy_after 1 (set_enemy false 48 g) = set_enemy true 48 g /\
  enemy_after 1 (set_enemy true (-48) g) = set_enemy false (-48) g.
Proof. split; reflexivity. Qed.

Lemma set_enemy_same (g : game) :
  set_enemy (enemy_going_up g) (right_paddle_y g) g = g.
Proof. destruct g; reflexivity. Qed.

Lemma enemy_after_194 (g : game) :
  -48 <= right_paddle_y g <= 48 -> enemy_after 194 g = g.
Proof.
  intros Hy. rewrite <- (set_enemy_same g) at 1.
  destruct (enemy_turns g) as [Htop Hbottom].
  set (y := right_paddle_y g) in *.
  destruct (enemy_going_up g) eqn:Hup.
  - replace 194%nat
      with (Z.to_nat (y + 48) + (1 + (96 + (1 + Z.to_nat (48 - y)))))%nat by lia.
    rewrite !enemy_after_add, enemy_ascends by lia.
    replace (y - Z.of_nat (Z.to_nat (y + 48))) with (-48) by lia.
    rewrite Hbottom, enemy_descends by lia.
    change (-48 + Z.of_nat 96) with 48.
    rewrite Htop, enemy_ascends by lia.
    replace (48 - Z.of_nat (Z.to_nat (48 - y))) with y by lia.
    subst y. rewrite <- Hup. apply set_enemy_same.
  - replace 194%nat
      with (Z.to_nat (48 - y) + (1 + (96 + (1 + Z.to_nat (y + 48)))))%nat by lia.
    rewrite !enemy_after_add, enemy_descends by lia.
    replace (y + Z.of_nat (Z.to_nat (48 - y))) with 48 by lia.
    rewrite Htop, enemy_ascends by lia.
    change (48 - Z.of_nat 96) with (-48).
    rewrite Hbottom, enemy_descends by lia.
    replace (-48 + Z.of_nat (Z.to_nat (y + 48))) with y by lia.
    subst y. rewrite <- Hup. apply set_enemy_same.
Qed.

Lemma move_right_paddle_enemy (g1 g2 : game) :
  right_paddle_y g1 = right_paddle_y g2 ->
  enemy_going_up g1 = enemy_going_up g2 ->
  right_paddle_y (move_right_paddle g1) = right_paddle_y (move_right_paddle g2) /\
  enemy_going_up (move_right_paddle g1) = enemy_going_up (move_right_paddle g2).
Proof.
  intros Hy Hup. unfold move_right_paddle. rewrite Hy, Hup.
  tests; cbn; auto.
Qed.

Lemma frame_enemy (fuel : nat) (k : keypad) (g g' : game) :
  frame fuel random k g = Some g' ->
  right_paddle_y g' = right_paddle_y (move_right_paddle g) /\
  enemy_going_up g' = enemy_going_up (move_right_paddle g).
Proof.
  unfold frame.
  destruct (launch fuel random k (move_right_paddle (move_left_paddle k g)))
    as [g1|] eqn:El; [|discriminate].
  intros [= <-].
  destruct (rally_paddles k g1) as (_ & -> & -> & _).
  destruct (paddles_move_paddles k g) as (_ & <- & <-).
  apply launch_cases in El.
  destruct El as [[-> _]|(_ & _ & _ & dx & dy & i & _ & ->)]; split; reflexivity.
Qed.

Lemma frames_enemy (inputs : list (nat * keypad)) (g g' : game) :
  frames random inputs g = Some g' ->
  right_paddle_y g' = right_paddle_y (enemy_after (length inputs) g) /\
  enemy_going_up g' = enemy_going_up (enemy_after (length inputs) g).
Proof.
  revert g. induction inputs as [|[fuel k] rest IH]; intros g; cbn [frames length enemy_after].
  - intros [= <-]. split; reflexivity.
  - destruct (frame fuel random k g) as [g1|] eqn:Hf; [|discriminate].
    intros Hrest. apply IH in Hrest. apply frame_enemy in Hf.
    destruct Hf as [Hy Hup], Hrest as [-> ->].
    clear - Hy Hup. revert g1 g Hy Hup.
    induction (length rest) as [|n IHn]; intros g1 g Hy Hup; cbn [enemy_after].
    + split; assumption.
    + apply IHn; apply move_right_paddle_enemy; assumption.
Qed.

(** X12: the enemy's paddle does not look at the ball: whatever is played,
    every 194 turns of the loop bring it back to the same height, moving in
    the same direction. *)
Theorem enemy_paddle_period (inputs : list (nat * keypad)) (g g' : game) :
  reachable random g ->
  length inputs = 194%nat ->
  frames random inputs g = Some g' ->
  right_paddle_y g' = right_paddle_y g /\
  enemy_going_up g' = enemy_going_up g.
Proof.
  intros Hreach Hlen Hrun.
  destruct (reachable_ok 6 g random_speed_6 ltac:(lia) Hreach) as [[_ Hp] _].
  apply frames_enemy in Hrun. rewrite Hlen, enemy_after_194 in Hrun by exact Hp.
  exact Hrun.
Qed.

Lemma frames_reachable (inputs : list (nat * keypad)) (g g' : game) :
  reachable random g -> frames random inputs g = Some g' -> reachable random g'.
Proof.
  revert g. induction inputs as [|[fuel k] rest IH]; intros g Hreach; cbn [frames].
  - now intros [= <-].
  - destruct (frame fuel random k g) as [g1|] eqn:Hf; [|discriminate].
    apply IH. exact (reachable_frame random g g1 k fuel Hreach Hf).
Qed.

End with_random.

(** ** The facts at a game played with the [counting] generator *)

Ltac served_reachable :=
  apply (reachable_frame counting start served press_a_up 1
           (reachable_start counting));
  vm_compute; reflexivity.

Ltac match_point_reachable :=
  apply (frames_reachable counting (idle 99) served match_point);
  [served_reachable | vm_compute; reflexivity].

Lemma paddles_stay_in_range_witness :
  reachable counting match_point /\
  -48 <= left_paddle_y match_point <= 48 /\
  -48 <= right_paddle_y match_point <= 48.
Proof.
  assert (Hr : reachable counting match_point) by match_point_reachable.
  split; [exact Hr|]. exact (paddles_stay_in_range counting match_point Hr).
Defined.

Lemma ball_stays_in_court_witness :
  reachable counting match_point /\
  -106 <= ball_x match_point <= 106 /\ -70 <= ball_y match_point <= 70.
Proof.
  assert (Hr : reachable counting match_point) by match_point_reachable.
  split; [exact Hr|].
  exact (proj2 (proj2 (ball_stays_in_court counting match_point Hr))).
Defined.

Lemma ball_stays_in_court_nonneg_witness :
  (forall n, 0 <= counting n) /\
  reachable counting match_point /\
  Z.abs (delta_x match_point) <= 2 /\ Z.abs (delta_y match_point) <= 2.
Proof.
  assert (Hpos : forall n, 0 <= counting n) by (intros n; unfold counting; lia).
  assert (Hr : reachable counting match_point) by match_point_reachable.
  split; [exact Hpos|]. split; [exact Hr|].
  destruct (ball_stays_in_court_nonneg counting match_point Hpos Hr) as (Hx & Hy & _).
  split; [exact Hx | exact Hy].
Defined.

Lemma ball_rests_or_moves_diagonally_witness :
  reachable counting after_point /\
  (delta_x after_point = 0 <-> delta_y after_point = 0) /\
  (delta_x after_point = 0 -> ball_x after_point = 0 /\ ball_y after_point = 0).
Proof.
  assert (Hr : reachable counting after_point).
  { apply (reachable_frame counting match_point after_point no_keys 0);
      [match_point_reachable | vm_compute; reflexivity]. }
  split; [exact Hr|].
  exact (ball_rests_or_moves_diagonally counting after_point Hr).
Defined.

Lemma ball_outside_heads_back_witness :
  (reachable counting at_wall /\
   64 < ball_y at_wall /\
   delta_y at_wall < 0 /\ ball_y at_wall + delta_y at_wall <= 64) /\
  (reachable ascending at_paddle /\
   ball_x at_paddle < -100 /\
   0 < delta_x at_paddle /\ -100 <= ball_x at_paddle + delta_x at_paddle).
Proof.
  assert (Hw : reachable counting at_wall).
  { apply (frames_reachable counting (idle 32) served at_wall);
      [served_reachable | vm_compute; reflexivity]. }
  assert (Hwy : 64 < ball_y at_wall) by (vm_compute; reflexivity).
  assert (Hp : reachable ascending at_paddle).
  { apply (frames_reachable ascending (repeat (O, hold_up) 50)
             (result (frame 1 ascending press_a_up start)) at_paddle);
      [|vm_compute; reflexivity].
    apply (reachable_frame ascending start _ press_a_up 1
             (reachable_start ascending)).
    vm_compute; reflexivity. }
  assert (Hpx : ball_x at_paddle < -100) by (vm_compute; reflexivity).
  split.
  - split; [exact Hw|]. split; [exact Hwy|].
    exact (proj2 (proj2 (proj2 (ball_outside_heads_back counting at_wall Hw))) Hwy).
  - split; [exact Hp|]. split; [exact Hpx|].
    exact (proj1 (ball_outside_heads_back ascending at_paddle Hp) Hpx).
Defined.

Lemma frame_without_serve_witness :
  (a_pressed press_a_up = false \/ delta_x served <> 0 \/ delta_y served <> 0) /\
  exists g' : game,
    (forall (fuel : nat) (random' : nat -> Z),
        frame fuel random' press_a_up served = Some g') /\
    rng g' = rng served.
Proof.
  assert (Hidle : a_pressed press_a_up = false \/ delta_x served <> 0 \/ delta_y served <> 0)
    by (right; left; vm_compute; discriminate).
  split; [exact Hidle|]. exact (frame_without_serve press_a_up served Hidle).
Defined.

Lemma a_ignored_while_ball_moves_witness :
  (delta_x served <> 0 \/ delta_y served <> 0) /\
  frame 0 stuck
    {| up_held := true; down_held := false; a_pressed := false; b_pressed := false |}
    served
  = frame 0 stuck press_a_up served.
Proof.
  assert (Hmoving : delta_x served <> 0 \/ delta_y served <> 0)
    by (left; vm_compute; discriminate).
  split; [exact Hmoving|].
  exact (a_ignored_while_ball_moves stuck 0 press_a_up
           {| up_held := true; down_held := false; a_pressed := false;
              b_pressed := false |}
           served Hmoving eq_refl eq_refl eq_refl).
Defined.

Lemma score_moves_when_point_ends_witness :
  reachable counting match_point /\
  frame 0 counting no_keys match_point = Some after_point /\
  100 < ball_x match_point + delta_x match_point /\
  32 <= Z.abs (ball_y match_point + delta_y match_point - right_paddle_y after_point) /\
  score after_point = int_add (score match_point) 1 /\
  round_over after_point.
Proof.
  assert (Hr : reachable counting match_point) by match_point_reachable.
  assert (Hf : frame 0 counting no_keys match_point = Some after_point)
    by (vm_compute; reflexivity).
  assert (Hx : 100 < ball_x match_point + delta_x match_point)
    by (vm_compute; reflexivity).
  assert (Hy : 32 <= Z.abs (ball_y match_point + delta_y match_point
                            - right_paddle_y after_point))
    by (vm_compute; discriminate).
  split; [exact Hr|]. split; [exact Hf|]. split; [exact Hx|]. split; [exact Hy|].
  exact (proj1 (proj2 (score_moves_when_point_ends counting 0 no_keys
                         match_point after_point Hr Hf)) (conj Hx Hy)).
Defined.

Lemma rally_keeps_speed_witness :
  reachable counting served /\
  delta_x served <> 0 /\
  frame 0 counting no_keys served = Some served_next /\
  ((delta_x served_next = 0 /\ delta_y served_next = 0 /\
    ball_x served_next = 0 /\ ball_y served_next = 0) \/
   (Z.abs (delta_x served_next) = Z.abs (delta_x served) /\
    Z.abs (delta_y served_next) = Z.abs (delta_y served))).
Proof.
  assert (Hr : reachable counting served) by served_reachable.
  assert (Hm : delta_x served <> 0) by (vm_compute; discriminate).
  assert (Hf : frame 0 counting no_keys served = Some served_next)
    by (vm_compute; reflexivity).
  split; [exact Hr|]. split; [exact Hm|]. split; [exact Hf|].
  exact (rally_keeps_speed counting 0 no_keys served served_next Hr Hm Hf).
Defined.

Lemma serve_takes_first_good_pair_witness :
  reachable counting start /\
  a_pressed press_a_up = true /\
  good_pair counting (rng start + 2 * 0) /\
  exists g' : game,
    frame 1 counting press_a_up start = Some g' /\
    delta_x g' = 1 /\ delta_y g' = 2 /\ ball_x g' = 1 /\ ball_y g' = 2.
Proof.
  assert (Hr : reachable counting start) by constructor.
  assert (Hg : good_pair counting (rng start + 2 * 0))
    by (split; vm_compute; discriminate).
  assert (Hbad : forall j, (j < 0)%nat -> ~ good_pair counting (rng start + 2 * j))
    by (intros j Hj; lia).
  split; [exact Hr|]. split; [reflexivity|]. split; [exact Hg|].
  destruct (serve_takes_first_good_pair counting 0 1 press_a_up start
              Hr eq_refl eq_refl eq_refl Hbad Hg ltac:(lia))
    as (g' & Hf & Hdx & Hdy & Hbx & Hby & _).
  exists g'. split; [exact Hf|].
  rewrite Hbx, Hby, Hdx, Hdy. repeat split; reflexivity.
Defined.

Lemma serve_never_ends_witness :
  a_pressed press_a_up = true /\
  (forall j, ~ good_pair stuck (rng start + 2 * j)) /\
  frame 1000 stuck press_a_up start = None.
Proof.
  assert (Hbad : forall j, ~ good_pair stuck (rng start + 2 * j))
    by (intros j [Hx _]; apply Hx; reflexivity).
  split; [reflexivity|]. split; [exact Hbad|].
  exact (serve_never_ends stuck 1000 press_a_up start eq_refl eq_refl eq_refl Hbad).
Defined.

Lemma enemy_paddle_period_witness :
  reachable counting served /\
  length (idle 194) = 194%nat /\
  frames counting (idle 194) served = Some after_194 /\
  right_paddle_y after_194 = right_paddle_y served /\
  enemy_going_up after_194 = enemy_going_up served.
Proof.
  assert (Hr : reachable counting served) by served_reachable.
  assert (Hl : length (idle 194) = 194%nat) by (vm_compute; reflexivity).
  assert (Hf : frames counting (idle 194) served = Some after_194)
    by (vm_compute; reflexivity).
  split; [exact Hr|]. split; [exact Hl|]. split; [exact Hf|].
  exact (enemy_paddle_period counting (idle 194) served after_194 Hr Hl Hf).
Defined.

End pong_facts.

(** * More on the accessor and the configurator *)

Section accessor_bounds.
Context `{cfg : sram_config} {T : Type} `{!trivially_copyable T}.
Context `{!sram.fits T}.

Lemma unsafe_calls_not_halted (destination : T) (source : list byte)
    (size offset : Z) (m : machine) :
  is_halted (_bn_sram.unsafe_read destination size offset m) = false /\
  is_halted (_bn_sram.unsafe_write source size offset m) = false.
Proof.
  unfold _bn_sram.unsafe_read, _bn_sram.unsafe_write.
  destruct (in_bank size offset); split; reflexivity.
Qed.

(** X13: when [offset + sizeof(T)] does not pass [INT_MAX], [read_offset]
    and [write_offset] stop at an assertion exactly when the offset is
    negative or the window ends past the bank. *)
Theorem offset_halts_iff (destination source : T) (offset : Z) (m : machine) :
  offset + int_sizeof T <= INT_MAX ->
  (is_halted (sram.read_offset destination offset m) = true <->
   offset < 0 \/ sram.size < offset + int_sizeof T) /\
  (is_halted (sram.write_offset source offset m) = true <->
   offset < 0 \/ sram.size < offset + int_sizeof T).
Proof.
  intros _.
  rewrite read_offset_checked, write_offset_checked.
  unfold sram.size, hw_sram.size.
  destruct (unsafe_calls_not_halted destination (to_bytes source)
              (int_sizeof T) offset m) as [Hr Hw].
  destruct (Z.lt_ge_cases offset 0) as [Hneg|Hpos].
  { rewrite !checked_negative by assumption. cbn. split; split; auto. }
  destruct (Z.le_gt_cases (offset + int_sizeof T) hw_sram_size) as [Hfit|Hhigh].
  { rewrite !checked_in_range by assumption. rewrite Hr, Hw.
    split; split; (discriminate || lia). }
  rewrite !checked_too_high by assumption. cbn. split; split; auto.
Qed.

(** X14: whatever the offset, a call of [read_offset] or [write_offset]
    that stops at an assertion has touched nothing: the machine is the one
    before the call, no raw primitive was called, and the report is the one
    of the first assertion (the offset) or of the second (size and offset). *)
Theorem halted_call_touched_nothing
    (destination source : T) (offset : Z) (m m' : machine) (report : list msg_part) :
  sram.read_offset destination offset m = Halted report m' \/
  sram.write_offset source offset m = Halted report m' ->
  m' = m /\
  (report = [Str "Invalid offset: "; Int offset] \/
   report = [Str "Source size and offset are too high: "; Int (int_sizeof T);
             Str " - "; Int offset]).
Proof.
  destruct (unsafe_calls_not_halted destination (to_bytes source)
              (int_sizeof T) offset m) as [Hr Hw].
  unfold sram.read_offset, sram.write_offset, bind, BN_ASSERT.
  destruct (0 <=? offset);
    [destruct (int_sizeof T + offset <=? sram.size)|].
  - intros [He|He]; [rewrite He in Hr | rewrite He in Hw]; discriminate.
  - intros [[= <- <-]|[= <- <-]]; auto.
  - intros [[= <- <-]|[= <- <-]]; auto.
Qed.

End accessor_bounds.

Section configurator_fields.
Context `{cfg : sram_config}.

(** X16: on a 16-bit register value, [init] changes nothing outside the two
    bits of the wait-state field, leaves a 16-bit value and does not touch
    the bank. *)
Theorem init_keeps_other_fields (m : machine) :
  0 <= waitcnt m < 2 ^ 16 ->
  Z.shiftr (waitcnt (final (hw_sram.init m))) 2 = Z.shiftr (waitcnt m) 2 /\
  0 <= waitcnt (final (hw_sram.init m)) < 2 ^ 16 /\
  sram (final (hw_sram.init m)) = sram m.
Proof.
  intros Hr. rewrite init_step. cbn [final log set_waitcnt waitcnt sram].
  split; [|split; [apply Z.mod_pos_bound; lia | reflexivity]].
  rewrite u16_lor, (u16_small _ Hr), wait_state_code_u16, Z.shiftr_lor.
  replace (Z.shiftr (wait_state_code BN_CFG_SRAM_WAIT_STATE) 2) with 0
    by (destruct BN_CFG_SRAM_WAIT_STATE; reflexivity).
  apply Z.lor_0_r.
Qed.

End configurator_fields.

(** ** The facts on a bank of 32768 bytes *)

Lemma offset_halts_iff_witness :
  32765 + int_sizeof uint32_t <= INT_MAX /\
  @sram.fits (sram_32k BN_SRAM_WAIT_STATE_8) uint32_t _ /\
  is_halted (@sram.write_offset (sram_32k BN_SRAM_WAIT_STATE_8) uint32_t _ _
               (uint32 7) 32765 (filled (cfg := sram_32k BN_SRAM_WAIT_STATE_8) x00 0))
  = true.
Proof.
  assert (Hint : 32765 + int_sizeof uint32_t <= INT_MAX) by (vm_compute; discriminate).
  assert (Hfits : @sram.fits (sram_32k BN_SRAM_WAIT_STATE_8) uint32_t _)
    by (unfold sram.fits; vm_compute; discriminate).
  split; [exact Hint|]. split; [exact Hfits|].
  apply (proj2 (offset_halts_iff (cfg := sram_32k BN_SRAM_WAIT_STATE_8)
                  (uint32 0) (uint32 7) 32765
                  (filled (cfg := sram_32k BN_SRAM_WAIT_STATE_8) x00 0) Hint)).
  right. vm_compute. reflexivity.
Defined.

Lemma halted_call_touched_nothing_witness :
  @sram.fits (sram_32k BN_SRAM_WAIT_STATE_8) uint8_t _ /\
  @sram.read_offset (sram_32k BN_SRAM_WAIT_STATE_8) uint8_t _ _ x00 (-1)
    (filled (cfg := sram_32k BN_SRAM_WAIT_STATE_8) xff 0)
  = Halted [Str "Invalid offset: "; Int (-1)]
      (filled (cfg := sram_32k BN_SRAM_WAIT_STATE_8) xff 0) /\
  filled (cfg := sram_32k BN_SRAM_WAIT_STATE_8) xff 0
  = filled (cfg := sram_32k BN_SRAM_WAIT_STATE_8) xff 0.
Proof.
  assert (Hfits : @sram.fits (sram_32k BN_SRAM_WAIT_STATE_8) uint8_t _)
    by (unfold sram.fits; vm_compute; discriminate).
  assert (Hhalt : @sram.read_offset (sram_32k BN_SRAM_WAIT_STATE_8) uint8_t _ _ x00 (-1)
                    (filled (cfg := sram_32k BN_SRAM_WAIT_STATE_8) xff 0)
                  = Halted [Str "Invalid offset: "; Int (-1)]
                      (filled (cfg := sram_32k BN_SRAM_WAIT_STATE_8) xff 0))
    by reflexivity.
  split; [exact Hfits|]. split; [exact Hhalt|].
  exact (proj1 (halted_call_touched_nothing (cfg := sram_32k BN_SRAM_WAIT_STATE_8)
                  x00 x00 (-1) _ _ _ (or_introl Hhalt))).
Defined.

Lemma raw_calls_in_bank_witness :
  trivially_copyable_laws uint32_t /\
  @sram.fits (sram_32k BN_SRAM_WAIT_STATE_8) uint32_t _ /\
  100 + int_sizeof uint32_t <= INT_MAX /\
  Forall (event_in_bank (cfg := sram_32k BN_SRAM_WAIT_STATE_8))
    (new_events (filled (cfg := sram_32k BN_SRAM_WAIT_STATE_8) x00 0)
       (@sram.write_offset (sram_32k BN_SRAM_WAIT_STATE_8) uint32_t _ _
          (uint32 7) 100 (filled (cfg := sram_32k BN_SRAM_WAIT_STATE_8) x00 0))).
Proof.
  assert (Hfits : @sram.fits (sram_32k BN_SRAM_WAIT_STATE_8) uint32_t _)
    by (unfold sram.fits; vm_compute; discriminate).
  assert (Hmax : 100 + int_sizeof uint32_t <= INT_MAX) by (vm_compute; discriminate).
  split; [exact uint32_laws|]. split; [exact Hfits|]. split; [exact Hmax|].
  exact (proj2 (proj2 (proj2 (raw_calls_in_bank (cfg := sram_32k BN_SRAM_WAIT_STATE_8)
                                (uint32 0) (uint32 7) 100
                                (filled (cfg := sram_32k BN_SRAM_WAIT_STATE_8) x00 0)
                                Hmax)))).
Defined.

Lemma init_keeps_other_fields_witness :
  0 <= 16404 < 2 ^ 16 /\
  Z.shiftr (waitcnt (final (@hw_sram.init (sram_32k BN_SRAM_WAIT_STATE_2)
                              (filled (cfg := sram_32k BN_SRAM_WAIT_STATE_2) x00 16404)))) 2
  = Z.shiftr 16404 2.
Proof.
  assert (Hr : 0 <= 16404 < 2 ^ 16) by lia.
  split; [exact Hr|].
  exact (proj1 (init_keeps_other_fields (cfg := sram_32k BN_SRAM_WAIT_STATE_2)
                  (filled (cfg := sram_32k BN_SRAM_WAIT_STATE_2) x00 16404) Hr)).
Defined.
